(** * UserManager: a shallow embedding of src/UserManager.ts

    The class [UserManager] drives two collaborators, the bearer-token
    supplier ([this.token]) and the HTTP transport ([this.request]).  Both are
    external; they are modelled here as oracles that answer from the history
    of the interactions seen so far, and every interaction is recorded in a
    chronological log.  An [async] method becomes a computation in a small
    log-passing monad whose result is the settlement of the promise the
    method returns. *)

From Stdlib Require Import Ascii DecimalString.
From stdpp Require Import gmap strings list fin_maps.

Set Warnings "-register-all,-clear-no-such-hyp".

(** ** JavaScript values *)

(** Response bodies are whatever JSON the identity provider sent.  An object
    is kept as the list of its own enumerable properties in enumeration
    order. *)
Inductive JsVal : Type :=
  | JUndefined
  | JNull
  | JBool (b : bool)
  | JNum (n : Z)
  | JStr (s : string)
  | JArr (items : list JsVal)
  | JObj (props : list (string * JsVal)).

(** What a rejected promise carries, or what a [throw] raises. *)
Inductive JsError : Type :=
  | TypeError
  | Thrown (reason : string).

(** [PromiseSettledResult<T>]: [{status: 'fulfilled', value}] or
    [{status: 'rejected', reason}].  The same type serves as the settlement
    of an awaited promise. *)
Inductive PromiseSettledResult (T : Type) : Type :=
  | fulfilled (value : T)
  | rejected (reason : JsError).
Arguments fulfilled {T} value.
Arguments rejected {T} reason.

Definition is_fulfilled {T} (r : PromiseSettledResult T) : bool :=
  match r with fulfilled _ => true | rejected _ => false end.

(** Array index as a property key: ["0"], ["1"], ... *)
Definition index_key (i : nat) : string :=
  NilEmpty.string_of_uint (Nat.to_uint i).

Fixpoint indexed {A} (i : nat) (l : list A) : list (string * A) :=
  match l with
  | [] => []
  | x :: l' => (index_key i, x) :: indexed (S i) l'
  end.

(** A JavaScript string is kept as the bytes of its UTF-8 form, a lone
    surrogate as the three bytes of the generalised form ([ED A0..BF
    80..BF]).  Its indexed properties are its UTF-16 code units: one for a
    character of one, two or three bytes, two surrogates for a character of
    four bytes. *)
Definition is_continuation (c : ascii) : bool :=
  (128 <=? N_of_ascii c)%N && (N_of_ascii c <? 192)%N.

Definition surrogate (u : N) : JsVal :=
  JStr (String (ascii_of_N 237)
       (String (ascii_of_N (128 + (u / 64) mod 64))
       (String (ascii_of_N (128 + u mod 64)) EmptyString))).

Definition surrogate_pair (c0 c1 c2 c3 : ascii) : list JsVal :=
  let point :=
    ((N_of_ascii c0 mod 8) * 262144 + (N_of_ascii c1 mod 64) * 4096
     + (N_of_ascii c2 mod 64) * 64 + N_of_ascii c3 mod 64)%N in
  let offset := (point - 65536)%N in
  [surrogate (55296 + offset / 1024); surrogate (56320 + offset mod 1024)].

(** The code units of a string, each as a string of its own.  A byte that
    does not start a complete sequence stands for no character; it is
    enumerated on its own. *)
Fixpoint chars (s : string) : list JsVal :=
  match s with
  | EmptyString => []
  | String c0 s1 =>
      let alone := JStr (String c0 EmptyString) :: chars s1 in
      if (N_of_ascii c0 <? 192)%N then alone
      else if (N_of_ascii c0 <? 224)%N then
        match s1 with
        | String c1 s2 =>
            if is_continuation c1
            then JStr (String c0 (String c1 EmptyString)) :: chars s2
            else alone
        | _ => alone
        end
      else if (N_of_ascii c0 <? 240)%N then
        match s1 with
        | String c1 (String c2 s3) =>
            if is_continuation c1 && is_continuation c2
            then JStr (String c0 (String c1 (String c2 EmptyString))) :: chars s3
            else alone
        | _ => alone
        end
      else
        match s1 with
        | String c1 (String c2 (String c3 s4)) =>
            if is_continuation c1 && is_continuation c2 && is_continuation c3
            then surrogate_pair c0 c1 c2 c3 ++ chars s4
            else alone
        | _ => alone
        end
  end.

(** [Object.entries(v)]: throws a TypeError on [undefined] and [null],
    enumerates the indices of strings and arrays, and has nothing to
    enumerate on booleans and numbers. *)
Definition Object_entries (v : JsVal) : PromiseSettledResult (list (string * JsVal)) :=
  match v with
  | JUndefined | JNull => rejected TypeError
  | JBool _ | JNum _ => fulfilled []
  | JStr s => fulfilled (indexed 0 (chars s))
  | JArr items => fulfilled (indexed 0 items)
  | JObj props => fulfilled props
  end.

(** Property read [v.name].  Reading a property of [undefined] or [null]
    throws; a missing property reads as [undefined].  Only objects carry
    named properties in this model. *)
Fixpoint assoc_get (name : string) (props : list (string * JsVal)) : JsVal :=
  match props with
  | [] => JUndefined
  | (k, v) :: rest => if String.eqb k name then v else assoc_get name rest
  end.

Definition js_get (v : JsVal) (name : string) : PromiseSettledResult JsVal :=
  match v with
  | JUndefined | JNull => rejected TypeError
  | JObj props => fulfilled (assoc_get name props)
  | _ => fulfilled JUndefined
  end.

(** ** Attributes and the [Map] built by [addAttributes] *)

(** [interface Attribute { key: string, value: string[] }].  At run time the
    value is whatever the identity provider stored, hence a [JsVal]. *)
Record Attribute : Type := { key : string; value : JsVal }.

(** A [Map<string, string[]>]: entries in insertion order, keys distinct. *)
Definition JsMap : Type := list (string * JsVal).

(** [m.set(k, v)]: an existing key keeps its position and takes the new
    value; a new key is appended. *)
Fixpoint Map_set (k : string) (v : JsVal) (m : JsMap) : JsMap :=
  match m with
  | [] => [(k, v)]
  | (k', v') :: rest =>
      if String.eqb k' k then (k', v) :: rest else (k', v') :: Map_set k v rest
  end.

(** [Object.fromEntries(entries)]: one data property per entry, a later
    entry overwriting an earlier one with the same key.  The resulting
    object is used only as a key-to-value mapping. *)
Definition Object_fromEntries (entries : list (string * JsVal)) : gmap string JsVal :=
  foldl (fun o kv => <[kv.1 := kv.2]> o) ∅ entries.

(** Lines 63-70 of [addAttributes]. *)
Definition combinedAttributes (previousAttributes attributes : list Attribute)
  : list Attribute :=
  previousAttributes ++ attributes.

Definition mappedAttributes (combined : list Attribute) : JsMap :=
  foldl (fun m attribute => Map_set (key attribute) (value attribute) m) [] combined.

Definition mergedBody (previousAttributes attributes : list Attribute)
  : gmap string JsVal :=
  Object_fromEntries (mappedAttributes (combinedAttributes previousAttributes attributes)).

(** The value of the last attribute of [l] whose key is [k]. *)
Definition last_value (k : string) (l : list Attribute) : option JsVal :=
  value <$> last (filter (fun a => key a = k) l).

Definition keys (l : list Attribute) : list string := key <$> l.

(** ** The collaborators and the interaction log *)

Inductive Method : Type := GET | POST | PUT.

(** [interface Headers]: the single entry built by [mountHeaders]. *)
Record Headers : Type := { Authorization : string }.

(** The second argument of [request.post] and [request.put]. *)
Inductive Body : Type :=
  | NoBody
  | NullBody
  | UserBody (userData : gmap string JsVal)
  | CredentialBody (type : string) (credential : JsVal) (temporary : bool)
  | AttributesBody (attributes : gmap string JsVal).

Record Request : Type :=
  { method : Method; url : string; body : Body; headers : Headers }.

(** The part of an [AxiosResponse] the class reads: [data] and
    [headers.location]. *)
Record AxiosResponse : Type := { data : JsVal; location : option string }.

Inductive Event : Type :=
  | TokenGet
  | Http (r : Request)
  | ConsoleLog (msg : string).

(** [this.token.get()] and [this.request.get/post/put(...)], answering from
    the interactions so far.  The transport is typed [AxiosInstance | any]
    and the class guards with [response?.data], so a transport may fulfil
    with no response at all ([None]). *)
Definition AccessToken : Type := list Event → PromiseSettledResult string.
Definition AxiosInstance : Type :=
  list Event → Request → PromiseSettledResult (option AxiosResponse).

(** [interface KeycloakConfig], of which the class reads [realm]. *)
Record KeycloakConfig : Type := { realm : string }.

Record UserManager : Type :=
  { config : KeycloakConfig; request : AxiosInstance; token : AccessToken }.

(** [interface UpdateCredentialOptions { temporary?: boolean }]. *)
Record UpdateCredentialOptions : Type := { temporary_opt : option bool }.
Definition no_options : UpdateCredentialOptions := {| temporary_opt := None |}.

(** ** Asynchronous computations *)

Definition Async (A : Type) : Type :=
  list Event → PromiseSettledResult A * list Event.

Definition ret {A} (a : A) : Async A := fun log => (fulfilled a, log).

Definition bind {A B} (m : Async A) (k : A → Async B) : Async B :=
  fun log =>
    match m log with
    | (fulfilled a, log') => k a log'
    | (rejected e, log') => (rejected e, log')
    end.

Notation "'await' x := m ; k" := (bind m (fun x => k))
  (at level 20, x name, m at level 100, k at level 200, only parsing).

(** A synchronous expression that may throw, inside an [async] body. *)
Definition throwing {A} (r : PromiseSettledResult A) : Async A :=
  fun log => (r, log).

(** [try { m } catch (e) { h e }]. *)
Definition try_catch {A} (m : Async A) (h : JsError → Async A) : Async A :=
  fun log =>
    match m log with
    | (fulfilled a, log') => (fulfilled a, log')
    | (rejected e, log') => h e log'
    end.

(** Calling an [async] function or the transport without [await]: the work
    is started and the promise, which settles one way or the other, is
    kept. *)
Definition promise {A} (m : Async A) : Async (PromiseSettledResult A) :=
  fun log => let (r, log') := m log in (fulfilled r, log').

(** [Promise.allSettled(promises)]: always fulfils, with one settled result
    per promise, in the order of the array. *)
Definition allSettled {A} (promises : list (PromiseSettledResult A))
  : Async (list (PromiseSettledResult A)) :=
  ret promises.

Definition console_log (msg : string) : Async unit :=
  fun log => (fulfilled tt, log ++ [ConsoleLog msg]).

(** Sequencing of throwing expressions. *)
Definition and_then {A B} (r : PromiseSettledResult A)
    (k : A → PromiseSettledResult B) : PromiseSettledResult B :=
  match r with fulfilled a => k a | rejected e => rejected e end.

Fixpoint map_throwing {A B} (f : A → PromiseSettledResult B) (l : list A)
  : PromiseSettledResult (list B) :=
  match l with
  | [] => fulfilled []
  | x :: l' =>
      and_then (f x) (fun y =>
      and_then (map_throwing f l') (fun ys => fulfilled (y :: ys)))
  end.

(** [s.split('/')] and [array.pop()] on the fresh array. *)
Fixpoint split_slash (s : string) : list string :=
  match s with
  | EmptyString => [EmptyString]
  | String c s' =>
      if Ascii.eqb c "/"%char then EmptyString :: split_slash s'
      else match split_slash s' with
           | [] => [String c EmptyString]
           | seg :: segs => String c seg :: segs
           end
  end.

Definition pop (segments : list string) : option string := last segments.

(** A template literal hole [${v}] for a value that is a string or
    [undefined]. *)
Definition interpolate (v : option string) : string :=
  match v with Some s => s | None => "undefined" end.

(** ** The class *)

Section UserManager.

Variable this : UserManager.

(** Set by the constructor. *)
Definition baseUrl : string :=
  "/auth/admin/realms/" +:+ realm (config this) +:+ "/users".

Definition token_get : Async string :=
  fun log => (token this log, log ++ [TokenGet]).

Definition request_send (r : Request) : Async (option AxiosResponse) :=
  fun log => (request this log r, log ++ [Http r]).

Definition request_get (url : string) (headers : Headers) :=
  request_send {| method := GET; url := url; body := NoBody; headers := headers |}.

Definition request_post (url : string) (body : Body) (headers : Headers) :=
  request_send {| method := POST; url := url; body := body; headers := headers |}.

Definition request_put (url : string) (body : Body) (headers : Headers) :=
  request_send {| method := PUT; url := url; body := body; headers := headers |}.

Definition mountHeaders : Async Headers :=
  await accessToken := token_get;
  ret {| Authorization := "Bearer " +:+ accessToken |}.

(** [response?.data] *)
Definition response_data (response : option AxiosResponse) : JsVal :=
  match response with
  | Some r => data r
  | None => JUndefined
  end.

Definition details (id : string) : Async JsVal :=
  await headers := mountHeaders;
  let url := baseUrl +:+ "/" +:+ id in
  await response := request_get url headers;
  ret (response_data response).

Definition savePassword (id : string) (credential : JsVal) (headers : Headers)
    (options : UpdateCredentialOptions) : Async unit :=
  let endpoint := baseUrl +:+ "/" +:+ id +:+ "/reset-password" in
  let body :=
    CredentialBody "password" credential
      (match temporary_opt options with Some true => true | _ => false end) in
  await _ := request_put endpoint body headers;
  ret tt.

Definition verifyEmail (id : string) (headers : Headers) : Async unit :=
  let endpoint := baseUrl +:+ "/" +:+ id +:+ "/send-verify-email" in
  await _ := request_put endpoint NullBody headers;
  ret tt.

(** [response.headers.location.split('/').pop()]: a TypeError when the
    response or its location header is missing. *)
Definition location_id (response : option AxiosResponse)
  : PromiseSettledResult (option string) :=
  match response with
  | Some r =>
      match location r with
      | Some l => fulfilled (pop (split_slash l))
      | None => rejected TypeError
      end
  | None => rejected TypeError
  end.

(** A [User] is an object; [{ password, ...userData } = user] reads the
    property [password] and copies every other own property. *)
Definition create (user : gmap string JsVal) : Async unit :=
  let password := default JUndefined (user !! "password") in
  let userData := delete "password" user in
  let endpoint := baseUrl in
  await headers := mountHeaders;
  await response := request_post endpoint (UserBody userData) headers;
  await popped := throwing (location_id response);
  let userId := interpolate popped in
  await p1 := promise (savePassword userId password headers no_options);
  await p2 := promise (verifyEmail userId headers);
  await _ := allSettled [p1; p2];
  ret tt.

(** [response?.data.attributes]: the optional chain yields [undefined]
    when there is no response, and the property read throws when [data]
    is [undefined] or [null]. *)
Definition response_attributes (response : option AxiosResponse)
  : PromiseSettledResult JsVal :=
  match response with
  | Some r => js_get (data r) "attributes"
  | None => fulfilled JUndefined
  end.

Definition to_attribute (attribute : string * JsVal) : Attribute :=
  {| key := attribute.1; value := attribute.2 |}.

Definition getAttributes (id : string) : Async (list Attribute) :=
  await headers := mountHeaders;
  let endpoint := baseUrl +:+ "/" +:+ id in
  await response := request_get endpoint headers;
  try_catch
    (await entries :=
       throwing (and_then (response_attributes response) Object_entries);
     ret (to_attribute <$> entries))
    (fun e =>
       await _ := console_log "Unable to parse response to Attribute array";
       ret []).

Definition addAttributes (id : string) (attributes : list Attribute) : Async unit :=
  await headers := mountHeaders;
  let endpoint := baseUrl +:+ "/" +:+ id in
  await previousAttributes := getAttributes id;
  let body := mergedBody previousAttributes attributes in
  await _ := request_put endpoint (AttributesBody body) headers;
  ret tt.

(** *** Role lookup *)

Definition RolesPromise : Type := PromiseSettledResult (option AxiosResponse).

Fixpoint forEach_push (f : string → Async RolesPromise) (clientsIds : list string)
    (promises : list RolesPromise) : Async (list RolesPromise) :=
  match clientsIds with
  | [] => ret promises
  | cid :: rest =>
      await p := f cid;
      forEach_push f rest (promises ++ [p])
  end.

Definition stackUpGetClientRolesRequests (id : string) (clientsIds : list string)
    (headers : Headers) : Async (list RolesPromise) :=
  let buildClientRolesUrl (cid : string) :=
    baseUrl +:+ "/" +:+ id +:+ "/role-mappings/clients/" +:+ cid +:+ "/composite" in
  forEach_push
    (fun cid => promise (request_get (buildClientRolesUrl cid) headers))
    clientsIds [].

(** Returns [response.value] or [null]; used as a [filter] predicate, so
    only its truthiness counts: a response object is truthy, a missing
    one and [null] are falsy. *)
Definition filterFulfilledResults (response : RolesPromise) : option AxiosResponse :=
  match response with
  | fulfilled value => value
  | rejected _ => None
  end.

Definition truthy (v : option AxiosResponse) : bool :=
  match v with Some _ => true | None => false end.

Definition listRolesNames (list' names : list JsVal) : list JsVal :=
  list' ++ names.

(** What [roles] returns: an array whose elements are either settled
    results or projected names. *)
Inductive RolesItem : Type :=
  | SettledItem (r : RolesPromise)
  | NameItem (name : JsVal).

(** [response.data] on an element of [successes].  The elements are
    settled results, which have [status] and [value] or [reason] but no
    [data]. *)
Definition settled_data (response : RolesPromise) : JsVal := JUndefined.

(** [v.map((role) => role.name)] *)
Definition map_role_name (v : JsVal) : PromiseSettledResult (list JsVal) :=
  match v with
  | JArr items => map_throwing (fun role => js_get role "name") items
  | _ => rejected TypeError
  end.

Definition batchAndParseRolesPromises (promises : list RolesPromise)
  : Async (list RolesItem) :=
  await batchResponses := allSettled promises;
  let successes :=
    List.filter (fun r => truthy (filterFulfilledResults r)) batchResponses in
  if negb (Nat.eqb (length successes) 0) then
    ret (SettledItem <$> successes)
  else
    await lists :=
      throwing (map_throwing (fun response => map_role_name (settled_data response))
                             successes);
    ret (NameItem <$> foldl listRolesNames [] lists).

Definition roles (id : string) (clientsIds : list string) (includeRealmRoles : bool)
  : Async (list RolesItem) :=
  await headers := mountHeaders;
  let realmRolesUrl := baseUrl +:+ "/" +:+ id +:+ "/role-mappings/realm/composite" in
  await clientPromises := stackUpGetClientRolesRequests id clientsIds headers;
  await promises :=
    (if includeRealmRoles then
       await p := promise (request_get realmRolesUrl headers);
       ret (clientPromises ++ [p])
     else ret clientPromises);
  batchAndParseRolesPromises promises.

End UserManager.

(** The events a computation adds to the log it is started on. *)
Definition emitted {A} (m : Async A) (log : list Event) : list Event :=
  drop (length log) (m log).2.

Definition is_token_get (e : Event) : bool :=
  match e with TokenGet => true | _ => false end.

Definition is_http (e : Event) : bool :=
  match e with Http _ => true | _ => false end.

(** How often the token supplier was consulted in a log. *)
Definition token_gets (log : list Event) : nat :=
  length (List.filter is_token_get log).

(** ** Scripted collaborators, for concrete runs *)

(** A transport that settles its n-th request with the n-th scripted answer
    and rejects once the script is exhausted. *)
Definition scripted (answers : list (PromiseSettledResult (option AxiosResponse)))
  : AxiosInstance :=
  fun log _ =>
    default (rejected (Thrown "Network Error"))
            (answers !! length (List.filter is_http log)).

Definition static_token (t : string) : AccessToken := fun _ => fulfilled t.

Definition manager (answers : list (PromiseSettledResult (option AxiosResponse)))
  : UserManager :=
  {| config := {| realm := "demo" |};
     request := scripted answers;
     token := static_token "t0" |}.

Definition ok (d : JsVal) : PromiseSettledResult (option AxiosResponse) :=
  fulfilled (Some {| data := d; location := None |}).

Definition created (l : string) : PromiseSettledResult (option AxiosResponse) :=
  fulfilled (Some {| data := JUndefined; location := Some l |}).

Definition failed (status : string) : PromiseSettledResult (option AxiosResponse) :=
  rejected (Thrown status).

Definition role (name : string) : JsVal := JObj [("name", JStr name)].

(** ** The requests each method issues *)

Definition bearer (accessToken : string) : Headers :=
  {| Authorization := "Bearer " +:+ accessToken |}.

Definition user_get (this : UserManager) (id accessToken : string) : Request :=
  {| method := GET; url := baseUrl this +:+ "/" +:+ id; body := NoBody;
     headers := bearer accessToken |}.

Definition create_post (this : UserManager) (user : gmap string JsVal)
    (accessToken : string) : Request :=
  {| method := POST; url := baseUrl this; body := UserBody (delete "password" user);
     headers := bearer accessToken |}.

Definition reset_password_put (this : UserManager) (user : gmap string JsVal)
    (accessToken : string) (popped : option string) : Request :=
  {| method := PUT;
     url := baseUrl this +:+ "/" +:+ interpolate popped +:+ "/reset-password";
     body := CredentialBody "password" (default JUndefined (user !! "password")) false;
     headers := bearer accessToken |}.

Definition verify_email_put (this : UserManager) (accessToken : string)
    (popped : option string) : Request :=
  {| method := PUT;
     url := baseUrl this +:+ "/" +:+ interpolate popped +:+ "/send-verify-email";
     body := NullBody;
     headers := bearer accessToken |}.

Definition attributes_put (this : UserManager) (id accessToken : string)
    (merged : gmap string JsVal) : Request :=
  {| method := PUT; url := baseUrl this +:+ "/" +:+ id; body := AttributesBody merged;
     headers := bearer accessToken |}.

(** One request per entry of [clientsIds], then the realm request when
    [includeRealmRoles] is set. *)
Definition roles_requests (this : UserManager) (id : string) (clientsIds : list string)
    (includeRealmRoles : bool) (accessToken : string) : list Request :=
  ((fun cid =>
      {| method := GET;
         url := baseUrl this +:+ "/" +:+ id +:+ "/role-mappings/clients/" +:+ cid
                +:+ "/composite";
         body := NoBody; headers := bearer accessToken |}) <$> clientsIds)
  ++ (if includeRealmRoles then
        [{| method := GET;
            url := baseUrl this +:+ "/" +:+ id +:+ "/role-mappings/realm/composite";
            body := NoBody; headers := bearer accessToken |}]
      else []).

(** The settlements of requests issued one after the other. *)
Fixpoint issue_all (this : UserManager) (requests : list Request) (log : list Event)
  : list (RolesPromise) :=
  match requests with
  | [] => []
  | r :: rest => request this log r :: issue_all this rest (log ++ [Http r])
  end.

(** The fan-out batch of a call to [roles] started on [log], once the token
    supplier has answered [accessToken]. *)
Definition roles_batch (this : UserManager) (id : string) (clientsIds : list string)
    (includeRealmRoles : bool) (log : list Event) (accessToken : string)
  : list RolesPromise :=
  issue_all this (roles_requests this id clientsIds includeRealmRoles accessToken)
            (log ++ [TokenGet]).

(** ** The specification's reading of two results *)

(** Section 4.3 of the specification: the [name] of every record of every
    successful response body, in batch order, duplicates kept. *)
Definition spec_response_names (response : AxiosResponse) : list JsVal :=
  match data response with
  | JArr items =>
      (fun role => match js_get role "name" with
                   | fulfilled n => n
                   | rejected _ => JUndefined
                   end) <$> items
  | _ => []
  end.

Definition spec_role_names (batch : list RolesPromise) : list JsVal :=
  concat ((fun outcome => match outcome with
                          | fulfilled (Some response) => spec_response_names response
                          | _ => []
                          end) <$> batch).

(** Section 4.5 of the specification: a key-to-value-list mapping is an
    object all of whose values are lists of strings. *)
Definition is_string_list (v : JsVal) : bool :=
  match v with
  | JArr items => forallb (fun x => match x with JStr _ => true | _ => false end) items
  | _ => false
  end.

Definition is_attribute_mapping (v : JsVal) : bool :=
  match v with
  | JObj props => forallb (fun kv => is_string_list kv.2) props
  | _ => false
  end.

(** ** Derived views of a run *)

(** What the [try] block of [getAttributes] yields: the entries, or nothing
    and a console notice when reading them throws. *)
Definition parsed_attributes (response : option AxiosResponse)
  : list Attribute * list Event :=
  match and_then (response_attributes response) Object_entries with
  | fulfilled entries => (to_attribute <$> entries, [])
  | rejected _ => ([], [ConsoleLog "Unable to parse response to Attribute array"])
  end.

(** An element that [filter(this.filterFulfilledResults)] keeps. *)
Definition is_success (r : RolesPromise) : bool :=
  truthy (filterFulfilledResults r).

(** The attributes field cannot be enumerated: there is no response, or
    its [data] is [undefined] or [null], or the field is absent or
    [null]. *)
Definition attributes_unreadable (response : option AxiosResponse) : bool :=
  match response_attributes response with
  | rejected _ | fulfilled JUndefined | fulfilled JNull => true
  | fulfilled _ => false
  end.

(** ** Concrete scenarios *)

(** The POST answers with a location; both follow-up requests are
    rejected. *)
Definition outage_manager : UserManager :=
  manager [created "http://kc/auth/admin/realms/demo/users/abc-1";
           failed "500"; failed "503"].

Definition bob : gmap string JsVal :=
  {[ "username" := JStr "bob"; "password" := JStr "s3cret" ]}.

Definition stored_attributes : list Attribute :=
  [ {| key := "team"; value := JArr [JStr "blue"] |};
    {| key := "locale"; value := JArr [JStr "pt"] |} ].

Definition incoming_attributes : list Attribute :=
  [ {| key := "team"; value := JArr [JStr "red"] |};
    {| key := "team"; value := JArr [JStr "green"; JStr "gold"] |} ].

(** The record holds [team] and [locale]; the PUT is rejected. *)
Definition attributes_manager : UserManager :=
  manager [ok (JObj [("id", JStr "u1");
                     ("attributes", JObj [("team", JArr [JStr "blue"]);
                                          ("locale", JArr [JStr "pt"])])]);
           failed "500"].

(** The token supplier rejects: the grant has expired. *)
Definition expired_manager (answers : list (PromiseSettledResult (option AxiosResponse)))
  : UserManager :=
  {| config := {| realm := "demo" |};
     request := scripted answers;
     token := fun _ => rejected (Thrown "invalid_grant") |}.

(** A token supplier that hands out a new token at every consultation:
    ["t0"], then ["t1"], ... *)
Definition rotating_token : AccessToken :=
  fun log => fulfilled ("t" +:+ index_key (token_gets log)).

Definition rotating_manager (answers : list (PromiseSettledResult (option AxiosResponse)))
  : UserManager :=
  {| config := {| realm := "demo" |};
     request := scripted answers;
     token := rotating_token |}.

(** ** Views used by the further properties *)

(** The HTTP requests of a log, in order. *)
Definition requests_of (events : list Event) : list Request :=
  omap (fun e => match e with Http r => Some r | _ => None end) events.

(** Whether a string contains the separator of [split('/')]. *)
Fixpoint has_slash (s : string) : bool :=
  match s with
  | EmptyString => false
  | String c s' => Ascii.eqb c "/"%char || has_slash s'
  end.

(** The entry of a [Map] that [set(attribute.key, attribute.value)]
    creates. *)
Definition to_entry (attribute : Attribute) : string * JsVal :=
  (key attribute, value attribute).

(** A user object without a [password] property. *)
Definition eve : gmap string JsVal :=
  {[ "username" := JStr "eve"; "email" := JStr "eve@example.org" ]}.

(** * Properties *)

(** ** The attribute merge *)

Section Merge.

Implicit Types (m : JsMap) (l : list Attribute) (k : string) (v : JsVal).

Lemma fromEntries_snoc (entries : list (string * JsVal)) k v :
  Object_fromEntries (entries ++ [(k, v)]) = <[k := v]> (Object_fromEntries entries).
Proof. unfold Object_fromEntries. by rewrite foldl_app. Qed.

Lemma fromEntries_cons_fresh (entries : list (string * JsVal)) k v :
  k ∉ entries.*1 →
  Object_fromEntries ((k, v) :: entries) = <[k := v]> (Object_fromEntries entries).
Proof.
  induction entries as [|[k' v'] entries IH] using rev_ind; intros Hk.
  - reflexivity.
  - rewrite fmap_app in Hk. cbn in Hk.
    apply not_elem_of_app in Hk as [Hk Hne].
    rewrite app_comm_cons, !fromEntries_snoc, IH by done.
    apply insert_insert_ne. set_solver.
  Qed.

Lemma Map_set_keys k v m :
  (Map_set k v m).*1 = if decide (k ∈ m.*1) then m.*1 else m.*1 ++ [k].
Proof.
  induction m as [|[k' v'] m IH]; cbn.
  - case_decide; [set_solver | done].
  - destruct (String.eqb_spec k' k) as [->|Hne]; cbn.
    + rewrite decide_True by set_solver. done.
    + rewrite IH. repeat case_decide; set_solver.
Qed.

Lemma Map_set_NoDup k v m : NoDup m.*1 → NoDup (Map_set k v m).*1.
Proof.
  intros Hm. rewrite Map_set_keys. case_decide; [done|].
  apply NoDup_app. split_and!; [done | set_solver | apply NoDup_singleton].
Qed.

Lemma fromEntries_Map_set k v m :
  NoDup m.*1 →
  Object_fromEntries (Map_set k v m) = <[k := v]> (Object_fromEntries m).
Proof.
  induction m as [|[k' v'] m IH]; intros Hm.
  - reflexivity.
  - cbn in Hm. apply NoDup_cons in Hm as [Hk' Hm]. cbn [Map_set].
    destruct (String.eqb_spec k' k) as [->|Hne].
    + rewrite !fromEntries_cons_fresh by done. by rewrite insert_insert_eq.
    + rewrite !fromEntries_cons_fresh, IH; [| done | done |].
      * by apply insert_insert_ne.
      * rewrite Map_set_keys. case_decide; set_solver.
Qed.

Lemma mappedAttributes_snoc l a :
  mappedAttributes (l ++ [a]) = Map_set (key a) (value a) (mappedAttributes l).
Proof. unfold mappedAttributes. by rewrite foldl_app. Qed.

(** The [Map] never holds a key twice. *)
Lemma mappedAttributes_NoDup l : NoDup (mappedAttributes l).*1.
Proof.
  induction l as [|a l IH] using rev_ind.
  - constructor.
  - rewrite mappedAttributes_snoc. by apply Map_set_NoDup.
Qed.

Lemma last_value_nil k : last_value k [] = None.
Proof. reflexivity. Qed.

Lemma last_value_snoc k l a :
  last_value k (l ++ [a]) = if decide (key a = k) then Some (value a) else last_value k l.
Proof.
  unfold last_value. rewrite filter_app.
  case_decide as Hk.
  - rewrite (filter_cons_True _ a []) by done. cbn. by rewrite last_snoc.
  - rewrite (filter_cons_False _ a []) by done. cbn. by rewrite app_nil_r.
Qed.

Lemma last_value_app k l1 l2 :
  last_value k (l1 ++ l2) =
  match last_value k l2 with Some v => Some v | None => last_value k l1 end.
Proof.
  induction l2 as [|a l2 IH] using rev_ind.
  - by rewrite app_nil_r.
  - rewrite app_assoc, !last_value_snoc. case_decide; [done | apply IH].
Qed.

Lemma last_value_is_Some k l : k ∈ keys l ↔ is_Some (last_value k l).
Proof.
  induction l as [|a l IH] using rev_ind.
  - cbn. split; [set_solver | intros [? ?]; done].
  - unfold keys in *. rewrite fmap_app, last_value_snoc. cbn.
    case_decide as Hk; [subst; split; [eauto | set_solver] |].
    rewrite <- IH. set_solver.
Qed.

Lemma last_value_None k l : k ∉ keys l ↔ last_value k l = None.
Proof. rewrite last_value_is_Some, eq_None_not_Some. done. Qed.

Lemma last_value_NoDup l a :
  NoDup (keys l) → a ∈ l → last_value (key a) l = Some (value a).
Proof.
  induction l as [|b l IH] using rev_ind; intros Hnd Ha; [set_solver|].
  unfold keys in *. rewrite fmap_app in Hnd. cbn in Hnd.
  apply NoDup_app in Hnd as (Hl & Hdisj & _).
  rewrite last_value_snoc. apply elem_of_app in Ha as [Ha|Ha].
  - rewrite decide_False; [by apply IH |].
    intros Heq. apply (Hdisj (key a)); [by apply list_elem_of_fmap_2 | set_solver].
  - apply list_elem_of_singleton in Ha as ->. by rewrite decide_True.
Qed.

(** The object written back maps each key to the value of its last
    occurrence in the combined list. *)
Lemma mergedMap_lookup l k :
  Object_fromEntries (mappedAttributes l) !! k = last_value k l.
Proof.
  induction l as [|a l IH] using rev_ind.
  - reflexivity.
  - rewrite mappedAttributes_snoc, fromEntries_Map_set by apply mappedAttributes_NoDup.
    rewrite last_value_snoc, lookup_insert. case_decide; [done | apply IH].
Qed.

Lemma mergedBody_lookup previousAttributes attributes k :
  mergedBody previousAttributes attributes !! k =
  match last_value k attributes with
  | Some v => Some v
  | None => last_value k previousAttributes
  end.
Proof.
  unfold mergedBody, combinedAttributes.
  by rewrite mergedMap_lookup, last_value_app.
Qed.

End Merge.

(** ** Running the methods *)

Ltac async_unfold :=
  unfold create, details, getAttributes, addAttributes, savePassword, verifyEmail,
    mountHeaders, token_get, request_post, request_put, request_get, request_send,
    promise, allSettled, try_catch, throwing, console_log, bind, ret.

Lemma emitted_app {A} (m : Async A) (log events : list Event) :
  (m log).2 = log ++ events → emitted m log = events.
Proof. intros E. unfold emitted. rewrite E. apply drop_app_length. Qed.

Lemma token_gets_app (l1 l2 : list Event) :
  token_gets (l1 ++ l2) = token_gets l1 + token_gets l2.
Proof. unfold token_gets. by rewrite List.filter_app, length_app. Qed.

Lemma token_gets_http (requests : list Request) : token_gets (Http <$> requests) = 0.
Proof. induction requests as [|r requests IH]; [done|]. apply IH. Qed.

Lemma details_run this id log :
  details this id log =
  match token this log with
  | rejected e => (rejected e, log ++ [TokenGet])
  | fulfilled accessToken =>
      let get := user_get this id accessToken in
      match request this (log ++ [TokenGet]) get with
      | rejected e => (rejected e, log ++ [TokenGet; Http get])
      | fulfilled response => (fulfilled (response_data response), log ++ [TokenGet; Http get])
      end
  end.
Proof.
  async_unfold. unfold user_get, bearer.
  destruct (token this log) as [accessToken|e]; cbn; [|done].
  destruct (request this _ _) as [response|e]; cbn; by rewrite <- app_assoc.
Qed.

Lemma create_run this user log :
  create this user log =
  match token this log with
  | rejected e => (rejected e, log ++ [TokenGet])
  | fulfilled accessToken =>
      let post := create_post this user accessToken in
      match request this (log ++ [TokenGet]) post with
      | rejected e => (rejected e, log ++ [TokenGet; Http post])
      | fulfilled response =>
          match location_id response with
          | rejected e => (rejected e, log ++ [TokenGet; Http post])
          | fulfilled popped =>
              (fulfilled tt,
               log ++ [TokenGet; Http post;
                       Http (reset_password_put this user accessToken popped);
                       Http (verify_email_put this accessToken popped)])
          end
      end
  end.
Proof.
  async_unfold. unfold create_post, bearer.
  destruct (token this log) as [accessToken|e]; cbn; [|done].
  destruct (request this _ _) as [response|e]; cbn; [|by rewrite <- app_assoc].
  destruct (location_id response) as [popped|e]; cbn; [|by rewrite <- app_assoc].
  unfold reset_password_put, verify_email_put, bearer.
  repeat (destruct (request this _ _); cbn); by rewrite <- !app_assoc.
Qed.

Lemma getAttributes_run this id log :
  getAttributes this id log =
  match token this log with
  | rejected e => (rejected e, log ++ [TokenGet])
  | fulfilled accessToken =>
      let get := user_get this id accessToken in
      match request this (log ++ [TokenGet]) get with
      | rejected e => (rejected e, log ++ [TokenGet; Http get])
      | fulfilled response =>
          (fulfilled (parsed_attributes response).1,
           log ++ [TokenGet; Http get] ++ (parsed_attributes response).2)
      end
  end.
Proof.
  async_unfold. unfold user_get, bearer, parsed_attributes.
  destruct (token this log) as [accessToken|e]; cbn; [|done].
  destruct (request this _ _) as [response|e]; cbn; [|by rewrite <- app_assoc].
  destruct (and_then _ _) as [entries|e]; cbn; by rewrite <- ?app_assoc, ?app_nil_r.
Qed.

Lemma addAttributes_run this id attributes log :
  addAttributes this id attributes log =
  match token this log with
  | rejected e => (rejected e, log ++ [TokenGet])
  | fulfilled accessToken =>
      match getAttributes this id (log ++ [TokenGet]) with
      | (rejected e, log1) => (rejected e, log1)
      | (fulfilled previousAttributes, log1) =>
          let put :=
            attributes_put this id accessToken (mergedBody previousAttributes attributes) in
          (match request this log1 put with
           | rejected e => rejected e
           | fulfilled _ => fulfilled tt
           end, log1 ++ [Http put])
      end
  end.
Proof.
  unfold addAttributes, bind at 1, mountHeaders, bind at 1, token_get, ret.
  destruct (token this log) as [accessToken|e]; cbn; [|done].
  unfold bind at 1.
  destruct (getAttributes this id _) as [[previousAttributes|e] log1]; [|done].
  unfold bind, request_put, request_send, attributes_put, bearer, ret.
  by destruct (request this _ _).
Qed.

Lemma issue_all_app this (l1 l2 : list Request) log :
  issue_all this (l1 ++ l2) log =
  issue_all this l1 log ++ issue_all this l2 (log ++ (Http <$> l1)).
Proof.
  revert log. induction l1 as [|r l1 IH]; intros log; cbn.
  - by rewrite app_nil_r.
  - by rewrite IH, <- app_assoc.
Qed.

Lemma issue_all_length this (requests : list Request) log :
  length (issue_all this requests log) = length requests.
Proof.
  revert log. induction requests as [|r requests IH]; intros log; cbn; [done|].
  by rewrite IH.
Qed.

Lemma forEach_push_run this (build : string → Request) clientsIds promises log :
  forEach_push (fun cid => promise (request_send this (build cid))) clientsIds promises log =
  (fulfilled (promises ++ issue_all this (build <$> clientsIds) log),
   log ++ (Http <$> (build <$> clientsIds))).
Proof.
  revert promises log.
  induction clientsIds as [|cid clientsIds IH]; intros promises log; cbn.
  - unfold ret. by rewrite !app_nil_r.
  - rewrite IH. by rewrite <- !app_assoc.
Qed.

(** Whatever the batch holds, the value returned is the list of its
    successful settled results: the projection of names is reached only
    when that list is empty. *)
Lemma batchAndParseRolesPromises_run (promises : list RolesPromise) log :
  batchAndParseRolesPromises promises log =
  (fulfilled (SettledItem <$> List.filter is_success promises), log).
Proof.
  unfold batchAndParseRolesPromises, allSettled, bind, ret. cbn.
  change (fun r => truthy (filterFulfilledResults r)) with is_success.
  destruct (List.filter is_success promises) as [|p successes]; reflexivity.
Qed.

Lemma roles_run this id clientsIds includeRealmRoles log :
  roles this id clientsIds includeRealmRoles log =
  match token this log with
  | rejected e => (rejected e, log ++ [TokenGet])
  | fulfilled accessToken =>
      (fulfilled (SettledItem <$>
         List.filter is_success (roles_batch this id clientsIds includeRealmRoles log accessToken)),
       log ++ TokenGet :: (Http <$> roles_requests this id clientsIds includeRealmRoles accessToken))
  end.
Proof.
  unfold roles, bind at 1, mountHeaders, bind at 1, token_get, ret.
  destruct (token this log) as [accessToken|e]; [|done].
  unfold bind at 1, stackUpGetClientRolesRequests, request_get.
  rewrite (forEach_push_run this
             (fun cid => {| method := GET; url := _; body := NoBody; headers := _ |})).
  unfold roles_batch, roles_requests, bearer.
  rewrite issue_all_app, fmap_app.
  destruct includeRealmRoles; unfold bind, promise, request_send;
    rewrite batchAndParseRolesPromises_run; cbn;
    rewrite <- ?app_assoc, ?app_nil_r; reflexivity.
Qed.

(** ** Role lookup *)

(** With at least one success in the batch, every element of the result
    is a settled result: no role name is ever projected. *)
Lemma roles_some_success this id clientsIds includeRealmRoles log accessToken :
  token this log = fulfilled accessToken →
  (roles this id clientsIds includeRealmRoles log).1 =
  fulfilled (SettledItem <$>
    List.filter is_success (roles_batch this id clientsIds includeRealmRoles log accessToken)).
Proof. intros Htoken. by rewrite roles_run, Htoken. Qed.

(** C1: with one client scope that answers with the single role [read],
    the specification expects the names [["read"]]; [roles] returns instead
    the one fulfilled settled result itself, response included, because the
    branch of the conditional taken for a non-empty list of successes
    returns that list unparsed. *)
Theorem roles_returns_settled_results :
  let this := manager [ok (JArr [role "read"])] in
  let batch := roles_batch this "u1" ["clientA"] false [] "t0" in
  batch = [ok (JArr [role "read"])] ∧
  spec_role_names batch = [JStr "read"] ∧
  (roles this "u1" ["clientA"] false []).1 =
    fulfilled [SettledItem (ok (JArr [role "read"]))] ∧
  (roles this "u1" ["clientA"] false []).1 ≠
    fulfilled (NameItem <$> spec_role_names batch).
Proof. cbv zeta. split_and!; [reflexivity .. | discriminate]. Qed.

(** C2 as stated fails: one client scope, whose request is rejected.  The
    batch holds that one failure, yet the value returned is the empty
    list. *)
Lemma roles_all_failed_counterexample :
  let this := manager [failed "500"] in
  let batch := roles_batch this "u1" ["clientA"] false [] "t0" in
  batch = [failed "500"] ∧
  Forall (fun p => is_fulfilled p = false) batch ∧
  (roles this "u1" ["clientA"] false []).1 = fulfilled [] ∧
  (roles this "u1" ["clientA"] false []).1 ≠ fulfilled (SettledItem <$> batch).
Proof.
  cbv zeta. split_and!; [reflexivity | | reflexivity | discriminate].
  repeat constructor.
Qed.

Lemma filter_success_all_failed (batch : list RolesPromise) :
  Forall (fun p => is_fulfilled p = false) batch → List.filter is_success batch = [].
Proof.
  induction 1 as [|p batch Hp _ IH]; [done|].
  destruct p; [discriminate | exact IH].
Qed.

(** C2, amended: when every request of the batch is rejected, the batch
    holds one failure per requested scope (one per entry of [clientsIds],
    one more for the realm when [includeRealmRoles] is set), and [roles]
    fulfils with the empty list: the failures are filtered out, none is
    returned. *)
Theorem roles_all_failed_returns_empty
    this id clientsIds (includeRealmRoles : bool) log accessToken :
  token this log = fulfilled accessToken →
  Forall (fun p => is_fulfilled p = false)
         (roles_batch this id clientsIds includeRealmRoles log accessToken) →
  length (roles_batch this id clientsIds includeRealmRoles log accessToken) =
    length clientsIds + (if includeRealmRoles then 1 else 0) ∧
  (roles this id clientsIds includeRealmRoles log).1 = fulfilled [].
Proof.
  intros Htoken Hfailed. split.
  - unfold roles_batch, roles_requests.
    rewrite issue_all_length, length_app, length_fmap.
    by destruct includeRealmRoles.
  - rewrite roles_run, Htoken. cbn.
    by rewrite filter_success_all_failed.
Qed.

Lemma roles_all_failed_returns_empty_witness :
  let this := manager [failed "500"; failed "404"] in
  token this [] = fulfilled "t0" ∧
  Forall (fun p => is_fulfilled p = false) (roles_batch this "u1" ["clientA"] true [] "t0") ∧
  length (roles_batch this "u1" ["clientA"] true [] "t0") = 2 ∧
  (roles this "u1" ["clientA"] true []).1 = fulfilled [].
Proof.
  cbv zeta.
  assert (Hf : Forall (fun p : RolesPromise => is_fulfilled p = false)
                 (roles_batch (manager [failed "500"; failed "404"]) "u1" ["clientA"] true [] "t0"))
    by (repeat constructor).
  split; [reflexivity|]. split; [exact Hf|].
  exact (roles_all_failed_returns_empty
           (manager [failed "500"; failed "404"]) "u1" ["clientA"] true [] "t0" eq_refl Hf).
Defined.

(** ** Account creation *)

(** The requests a call to [create] can issue. *)
Lemma create_emitted_http this user log r :
  Http r ∈ emitted (create this user) log →
  ∃ accessToken,
    token this log = fulfilled accessToken ∧
    (r = create_post this user accessToken ∨
     ∃ popped, r = reset_password_put this user accessToken popped ∨
               r = verify_email_put this accessToken popped).
Proof.
  intros Hr.
  assert (Hrun := create_run this user log).
  destruct (token this log) as [accessToken|e].
  - exists accessToken. split; [done|]. cbv zeta in Hrun.
    destruct (request this _ _) as [response|e];
      [destruct (location_id response) as [popped|e]|];
      rewrite (emitted_app _ _ _ (f_equal snd Hrun)) in Hr;
      set_solver.
  - rewrite (emitted_app _ _ _ (f_equal snd Hrun)) in Hr. set_solver.
Qed.

(** C3: once the creation POST has answered with a location header,
    [create] fulfils, whatever the transport does with the reset-password
    and the send-verify-email requests; both are issued, and neither
    settlement reaches the caller. *)
Theorem create_tolerates_follow_up_failures
    this user log accessToken response l :
  token this log = fulfilled accessToken →
  request this (log ++ [TokenGet]) (create_post this user accessToken) =
    fulfilled (Some response) →
  location response = Some l →
  create this user log =
  (fulfilled tt,
   log ++ [TokenGet;
           Http (create_post this user accessToken);
           Http (reset_password_put this user accessToken (pop (split_slash l)));
           Http (verify_email_put this accessToken (pop (split_slash l)))]).
Proof.
  intros Htoken Hpost Hlocation.
  rewrite create_run, Htoken. cbv zeta. rewrite Hpost.
  unfold location_id. by rewrite Hlocation.
Qed.

Lemma create_tolerates_follow_up_failures_witness :
  token outage_manager [] = fulfilled "t0" ∧
  request outage_manager [TokenGet] (create_post outage_manager bob "t0") =
    fulfilled (Some {| data := JUndefined;
                       location := Some "http://kc/auth/admin/realms/demo/users/abc-1" |}) ∧
  request outage_manager
    [TokenGet; Http (create_post outage_manager bob "t0")]
    (reset_password_put outage_manager bob "t0" (Some "abc-1")) = failed "500" ∧
  request outage_manager
    [TokenGet; Http (create_post outage_manager bob "t0");
     Http (reset_password_put outage_manager bob "t0" (Some "abc-1"))]
    (verify_email_put outage_manager "t0" (Some "abc-1")) = failed "503" ∧
  create outage_manager bob [] =
  (fulfilled tt,
   [TokenGet;
    Http (create_post outage_manager bob "t0");
    Http (reset_password_put outage_manager bob "t0" (Some "abc-1"));
    Http (verify_email_put outage_manager "t0" (Some "abc-1"))]).
Proof.
  split_and!; [reflexivity .. |].
  exact (create_tolerates_follow_up_failures outage_manager bob [] "t0"
           {| data := JUndefined;
              location := Some "http://kc/auth/admin/realms/demo/users/abc-1" |}
           "http://kc/auth/admin/realms/demo/users/abc-1" eq_refl eq_refl eq_refl).
Defined.

(** C8: the only POST that [create] issues carries the user object
    without its [password] property: that property is absent from the
    body, and every other property is the user's. *)
Theorem create_post_body_omits_password this user log r :
  Http r ∈ emitted (create this user) log →
  method r = POST →
  ∃ userData,
    body r = UserBody userData ∧
    userData = delete "password" user ∧
    userData !! "password" = None ∧
    ∀ k, k ≠ "password" → userData !! k = user !! k.
Proof.
  intros Hr Hmethod.
  apply create_emitted_http in Hr as (accessToken & _ & [->|[popped [->| ->]]]);
    [|discriminate Hmethod ..].
  exists (delete "password" user). split_and!; [done | done | |].
  - apply lookup_delete_eq.
  - intros k Hk. by apply lookup_delete_ne.
Qed.

Lemma create_post_body_omits_password_witness :
  Http (create_post outage_manager bob "t0") ∈ emitted (create outage_manager bob) [] ∧
  method (create_post outage_manager bob "t0") = POST ∧
  ∃ userData,
    body (create_post outage_manager bob "t0") = UserBody userData ∧
    userData = delete "password" bob ∧
    userData !! "password" = None ∧
    ∀ k, k ≠ "password" → userData !! k = bob !! k.
Proof.
  assert (Hin : Http (create_post outage_manager bob "t0")
                ∈ emitted (create outage_manager bob) []).
  { apply list_elem_of_further, list_elem_of_here. }
  split; [exact Hin|]. split; [reflexivity|].
  exact (create_post_body_omits_password outage_manager bob []
           (create_post outage_manager bob "t0") Hin eq_refl).
Defined.

(** C10: every request of [create] that carries a credential body, the
    reset-password PUT, has [temporary] false: [savePassword] is called
    without options. *)
Theorem create_password_never_temporary this user log r type credential temporary :
  Http r ∈ emitted (create this user) log →
  body r = CredentialBody type credential temporary →
  temporary = false.
Proof.
  intros Hr Hbody.
  apply create_emitted_http in Hr as (accessToken & _ & [->|[popped [->| ->]]]);
    cbn in Hbody; congruence.
Qed.

Lemma create_password_never_temporary_witness :
  Http (reset_password_put outage_manager bob "t0" (Some "abc-1"))
    ∈ emitted (create outage_manager bob) [] ∧
  body (reset_password_put outage_manager bob "t0" (Some "abc-1")) =
    CredentialBody "password" (JStr "s3cret") false ∧
  false = false.
Proof.
  assert (Hin : Http (reset_password_put outage_manager bob "t0" (Some "abc-1"))
                ∈ emitted (create outage_manager bob) []).
  { do 2 apply list_elem_of_further. apply list_elem_of_here. }
  split; [exact Hin|]. split; [reflexivity|].
  exact (create_password_never_temporary outage_manager bob []
           (reset_password_put outage_manager bob "t0" (Some "abc-1"))
           "password" (JStr "s3cret") false Hin eq_refl).
Defined.

(** ** Attributes *)

(** C4: a key present in both lists is mapped, in the object written
    back, to the value of its last occurrence in the incoming list, and to
    nothing built from the previous value. *)
Theorem merge_incoming_wins (previousAttributes attributes : list Attribute) (k : string) :
  k ∈ keys previousAttributes →
  k ∈ keys attributes →
  mergedBody previousAttributes attributes !! k = last_value k attributes ∧
  ∃ a, a ∈ attributes ∧ key a = k ∧
       mergedBody previousAttributes attributes !! k = Some (value a).
Proof.
  intros _ Hin. rewrite mergedBody_lookup.
  apply last_value_is_Some in Hin as [v Hv]. rewrite Hv. split; [done|].
  unfold last_value in Hv. apply fmap_Some in Hv as (a & Hlast & ->).
  apply last_Some_elem_of, list_elem_of_filter in Hlast as [Hkey Ha].
  by exists a.
Qed.

Lemma merge_incoming_wins_witness :
  "team" ∈ keys stored_attributes ∧
  "team" ∈ keys incoming_attributes ∧
  mergedBody stored_attributes incoming_attributes !! "team" =
    last_value "team" incoming_attributes ∧
  ∃ a, a ∈ incoming_attributes ∧ key a = "team" ∧
       mergedBody stored_attributes incoming_attributes !! "team" = Some (value a).
Proof.
  assert (H1 : "team" ∈ keys stored_attributes) by apply list_elem_of_here.
  assert (H2 : "team" ∈ keys incoming_attributes) by apply list_elem_of_here.
  split; [exact H1|]. split; [exact H2|].
  exact (merge_incoming_wins stored_attributes incoming_attributes "team" H1 H2).
Defined.

(** The attributes read back from an object with distinct property names
    have distinct keys. *)
Lemma parsed_attributes_keys (response : AxiosResponse) props :
  js_get (data response) "attributes" = fulfilled (JObj props) →
  fst (parsed_attributes (Some response)) = (to_attribute <$> props) ∧
  keys (parsed_attributes (Some response)).1 = props.*1.
Proof.
  intros Hget. unfold parsed_attributes, response_attributes. rewrite Hget. cbn.
  split; [done|]. unfold keys. rewrite <- list_fmap_compose. done.
Qed.

(** C5: the PUT of [addAttributes] carries the merge of the attributes
    just read with the incoming ones, and a key read but not incoming keeps
    there the value it was read with. *)
Theorem addAttributes_keeps_previous
    this id (attributes : list Attribute) log accessToken previousAttributes log1 k :
  token this log = fulfilled accessToken →
  getAttributes this id (log ++ [TokenGet]) = (fulfilled previousAttributes, log1) →
  k ∈ keys previousAttributes →
  k ∉ keys attributes →
  ∃ merged,
    (addAttributes this id attributes log).2 =
      log1 ++ [Http (attributes_put this id accessToken merged)] ∧
    merged = mergedBody previousAttributes attributes ∧
    merged !! k = last_value k previousAttributes ∧
    is_Some (merged !! k) ∧
    (NoDup (keys previousAttributes) →
     ∀ a, a ∈ previousAttributes → key a = k → merged !! k = Some (value a)).
Proof.
  intros Htoken Hget Hprev Hnew.
  exists (mergedBody previousAttributes attributes).
  assert (Hk : mergedBody previousAttributes attributes !! k =
               last_value k previousAttributes).
  { rewrite mergedBody_lookup. apply last_value_None in Hnew. by rewrite Hnew. }
  split_and!.
  - by rewrite addAttributes_run, Htoken, Hget.
  - done.
  - done.
  - rewrite Hk. by apply last_value_is_Some.
  - intros Hnodup a Ha <-. rewrite Hk. by apply last_value_NoDup.
Qed.

Lemma addAttributes_keeps_previous_witness :
  token attributes_manager [] = fulfilled "t0" ∧
  getAttributes attributes_manager "u1" [TokenGet] =
    (fulfilled stored_attributes,
     [TokenGet; TokenGet; Http (user_get attributes_manager "u1" "t0")]) ∧
  "locale" ∈ keys stored_attributes ∧
  ("locale" ∉ keys incoming_attributes) ∧
  ∃ merged,
    (addAttributes attributes_manager "u1" incoming_attributes []).2 =
      [TokenGet; TokenGet; Http (user_get attributes_manager "u1" "t0")]
      ++ [Http (attributes_put attributes_manager "u1" "t0" merged)] ∧
    merged = mergedBody stored_attributes incoming_attributes ∧
    merged !! "locale" = last_value "locale" stored_attributes ∧
    is_Some (merged !! "locale") ∧
    (NoDup (keys stored_attributes) →
     ∀ a, a ∈ stored_attributes → key a = "locale" → merged !! "locale" = Some (value a)).
Proof.
  assert (H3 : "locale" ∈ keys stored_attributes)
    by apply list_elem_of_further, list_elem_of_here.
  assert (H4 : "locale" ∉ keys incoming_attributes).
  { intros Hin. apply list_elem_of_In in Hin. cbn in Hin.
    destruct Hin as [H|[H|[]]]; discriminate H. }
  split; [reflexivity|]. split; [reflexivity|]. split; [exact H3|]. split; [exact H4|].
  exact (addAttributes_keeps_previous attributes_manager "u1" incoming_attributes []
           "t0" stored_attributes _ "locale" eq_refl eq_refl H3 H4).
Defined.

(** C6 as stated fails.  A string, or an object whose values are not
    lists, is no key-to-value-list mapping, yet [getAttributes] does not
    answer with the empty list: [Object.entries] enumerates the string's
    characters, and the values of the object are passed on unchecked. *)
Lemma getAttributes_malformed_counterexample :
  is_attribute_mapping (JStr "xy") = false ∧
  (getAttributes (manager [ok (JObj [("attributes", JStr "xy")])]) "u1" []).1 =
    fulfilled [ {| key := "0"; value := JStr "x" |}; {| key := "1"; value := JStr "y" |} ] ∧
  (getAttributes (manager [ok (JObj [("attributes", JStr "xy")])]) "u1" []).1 ≠ fulfilled [] ∧
  is_attribute_mapping (JObj [("team", JNum 7)]) = false ∧
  (getAttributes (manager [ok (JObj [("attributes", JObj [("team", JNum 7)])])]) "u1" []).1 =
    fulfilled [ {| key := "team"; value := JNum 7 |} ].
Proof. split_and!; [reflexivity | reflexivity | discriminate | reflexivity | reflexivity]. Qed.

(** C6, amended: once the record is fetched, [getAttributes] never
    rejects.  It fulfils with the empty list when the attributes field is
    absent or [null]; for any other value it fulfils with the entries that
    [Object.entries] enumerates, which is the empty list for a boolean or
    a number. *)
Theorem getAttributes_lenient this id log accessToken response :
  token this log = fulfilled accessToken →
  request this (log ++ [TokenGet]) (user_get this id accessToken) = fulfilled response →
  (∃ parsedResponse, (getAttributes this id log).1 = fulfilled parsedResponse) ∧
  (attributes_unreadable response = true →
   (getAttributes this id log).1 = fulfilled []) ∧
  (∀ v entries,
     response_attributes response = fulfilled v →
     Object_entries v = fulfilled entries →
     (getAttributes this id log).1 = fulfilled (to_attribute <$> entries)).
Proof.
  intros Htoken Hget.
  rewrite getAttributes_run, Htoken. cbv zeta. rewrite Hget. cbn [fst].
  split_and!.
  - eauto.
  - unfold attributes_unreadable, parsed_attributes.
    destruct (response_attributes response) as [[]|]; cbn; done.
  - intros v entries Hv Hentries. unfold parsed_attributes.
    rewrite Hv. cbn. by rewrite Hentries.
Qed.

Lemma getAttributes_lenient_witness :
  let this := manager [ok (JObj [("id", JStr "u1")])] in
  let response := Some {| data := JObj [("id", JStr "u1")]; location := None |} in
  token this [] = fulfilled "t0" ∧
  request this [TokenGet] (user_get this "u1" "t0") = fulfilled response ∧
  attributes_unreadable response = true ∧
  (getAttributes this "u1" []).1 = fulfilled [].
Proof.
  cbv zeta. split; [reflexivity|]. split; [reflexivity|]. split; [reflexivity|].
  exact (proj1 (proj2
           (getAttributes_lenient (manager [ok (JObj [("id", JStr "u1")])]) "u1" [] "t0"
              (Some {| data := JObj [("id", JStr "u1")]; location := None |})
              eq_refl eq_refl)) eq_refl).
Defined.

(** A string is enumerated by UTF-16 code unit: the three bytes of the
    euro sign are one entry, and a character beyond the basic plane is two
    entries, one per surrogate ([D83D] and [DE00] here). *)
Lemma getAttributes_string_code_units :
  (getAttributes (manager [ok (JObj [("attributes", JStr "€")])]) "u1" []).1 =
    fulfilled [ {| key := "0"; value := JStr "€" |} ] ∧
  (getAttributes (manager [ok (JObj [("attributes", JStr "a😀")])]) "u1" []).1 =
    fulfilled [ {| key := "0"; value := JStr "a" |};
                {| key := "1"; value := surrogate 55357 |};
                {| key := "2"; value := surrogate 56832 |} ] ∧
  surrogate 55357 =
    JStr (String (ascii_of_N 237) (String (ascii_of_N 160)
            (String (ascii_of_N 189) EmptyString))) ∧
  surrogate 56832 =
    JStr (String (ascii_of_N 237) (String (ascii_of_N 184)
            (String (ascii_of_N 128) EmptyString))).
Proof. split_and!; reflexivity. Qed.

Lemma fromEntries_lookup (entries : list (string * JsVal)) (k : string) :
  Object_fromEntries entries !! k = last_value k (to_attribute <$> entries).
Proof.
  induction entries as [|[k' v'] entries IH] using rev_ind.
  - reflexivity.
  - rewrite fmap_app, fromEntries_snoc. cbn.
    rewrite last_value_snoc, lookup_insert. cbn. case_decide; [done | apply IH].
Qed.

(** C7: let [entries] be any enumeration of the object a first merge
    wrote back, as [getAttributes] would read it.  Merging the same
    incoming attributes into it gives that object again. *)
Theorem merge_idempotent (existing incoming : list Attribute)
    (entries : list (string * JsVal)) :
  Object_fromEntries entries = mergedBody existing incoming →
  mergedBody (to_attribute <$> entries) incoming = mergedBody existing incoming.
Proof.
  intros Hentries. apply map_eq. intros k.
  rewrite !mergedBody_lookup.
  destruct (last_value k incoming) as [v|] eqn:Hk; [done|].
  by rewrite <- fromEntries_lookup, Hentries, mergedBody_lookup, Hk.
Qed.

Lemma merge_idempotent_witness :
  let entries := [("locale", JArr [JStr "pt"]);
                  ("team", JArr [JStr "green"; JStr "gold"])] in
  Object_fromEntries entries = mergedBody stored_attributes incoming_attributes ∧
  mergedBody (to_attribute <$> entries) incoming_attributes =
    mergedBody stored_attributes incoming_attributes.
Proof.
  cbv zeta. split; [reflexivity|].
  exact (merge_idempotent stored_attributes incoming_attributes
           [("locale", JArr [JStr "pt"]); ("team", JArr [JStr "green"; JStr "gold"])]
           eq_refl).
Defined.

(** ** The token supplier *)

Lemma token_gets_parsed (response : option AxiosResponse) :
  token_gets (parsed_attributes response).2 = 0.
Proof. unfold parsed_attributes. by destruct (and_then _ _). Qed.

Lemma getAttributes_token_gets this id log :
  token_gets (getAttributes this id log).2 = token_gets log + 1.
Proof.
  rewrite getAttributes_run.
  destruct (token this log) as [accessToken|e]; cbv zeta;
    [destruct (request this _ _) as [response|e]|]; cbn [snd];
    rewrite ?token_gets_app, ?token_gets_parsed; cbn; lia.
Qed.

(** C9 as stated fails for [addAttributes]: it builds its headers, then
    calls [getAttributes], which builds headers of its own, so the token
    supplier is consulted twice in one public operation. *)
Lemma addAttributes_two_tokens_counterexample :
  token_gets (emitted (addAttributes attributes_manager "u1" incoming_attributes) []) = 2 ∧
  token_gets (emitted (addAttributes attributes_manager "u1" incoming_attributes) []) ≠ 1.
Proof. split; [reflexivity | discriminate]. Qed.

(** C9, amended: started on any log, [details], [roles], [create] and
    [getAttributes] consult the token supplier exactly once, and nothing
    is reused from earlier operations.  [addAttributes] consults it twice
    when its own header build succeeds, the second time inside
    [getAttributes], and once when its own header build fails. *)
Theorem token_supplier_consultations this log :
  (∀ id, token_gets (details this id log).2 = token_gets log + 1) ∧
  (∀ id clientsIds includeRealmRoles,
     token_gets (roles this id clientsIds includeRealmRoles log).2 = token_gets log + 1) ∧
  (∀ user, token_gets (create this user log).2 = token_gets log + 1) ∧
  (∀ id, token_gets (getAttributes this id log).2 = token_gets log + 1) ∧
  (∀ id attributes,
     token_gets (addAttributes this id attributes log).2 =
     token_gets log + (if is_fulfilled (token this log) then 2 else 1)).
Proof.
  split_and!.
  - intros id. rewrite details_run.
    destruct (token this log) as [accessToken|e]; cbv zeta;
      [destruct (request this _ _) as [response|e]|]; cbn [snd];
      rewrite token_gets_app; cbn; lia.
  - intros id clientsIds includeRealmRoles. rewrite roles_run.
    destruct (token this log) as [accessToken|e]; cbn [snd];
      rewrite token_gets_app; [|cbn; lia].
    change (token_gets (TokenGet :: ?l)) with (S (token_gets l)).
    rewrite token_gets_http. lia.
  - intros user. rewrite create_run.
    destruct (token this log) as [accessToken|e]; cbv zeta;
      [destruct (request this _ _) as [response|e];
       [destruct (location_id response) as [popped|e]|]|]; cbn [snd];
      rewrite token_gets_app; cbn; lia.
  - intros id. apply getAttributes_token_gets.
  - intros id attributes. rewrite addAttributes_run.
    destruct (token this log) as [accessToken|e]; cbn [is_fulfilled snd].
    + pose proof (getAttributes_token_gets this id (log ++ [TokenGet])) as Hget.
      rewrite token_gets_app in Hget. cbn in Hget.
      destruct (getAttributes this id _) as [[previousAttributes|e] log1]; cbn [snd] in *.
      * rewrite token_gets_app. cbn. lia.
      * lia.
    + rewrite token_gets_app. cbn. lia.
Qed.

(** * Further properties of the class *)

(** ** What each method sends *)

Lemma string_app_nil_r (s : string) : s +:+ "" = s.
Proof.
  induction s as [|c s IH]; [done|].
  change (String c s +:+ "") with (String c (s +:+ "")). by rewrite IH.
Qed.

Lemma details_emitted_http this id log r :
  Http r ∈ emitted (details this id) log →
  ∃ accessToken, token this log = fulfilled accessToken ∧ r = user_get this id accessToken.
Proof.
  intros Hr. assert (Hrun := details_run this id log).
  destruct (token this log) as [accessToken|e].
  - exists accessToken. split; [done|]. cbv zeta in Hrun.
    destruct (request this _ _) as [response|e];
      rewrite (emitted_app _ _ _ (f_equal snd Hrun)) in Hr; set_solver.
  - rewrite (emitted_app _ _ _ (f_equal snd Hrun)) in Hr. set_solver.
Qed.

Lemma getAttributes_emitted_http this id log r :
  Http r ∈ emitted (getAttributes this id) log →
  ∃ accessToken, token this log = fulfilled accessToken ∧ r = user_get this id accessToken.
Proof.
  intros Hr. assert (Hrun := getAttributes_run this id log).
  destruct (token this log) as [accessToken|e].
  - exists accessToken. split; [done|]. cbv zeta in Hrun.
    destruct (request this _ _) as [response|e];
      rewrite (emitted_app _ _ _ (f_equal snd Hrun)) in Hr.
    + unfold parsed_attributes in Hr.
      destruct (and_then _ _); cbn in Hr; set_solver.
    + set_solver.
  - rewrite (emitted_app _ _ _ (f_equal snd Hrun)) in Hr. set_solver.
Qed.

Lemma roles_emitted this id clientsIds includeRealmRoles log accessToken :
  token this log = fulfilled accessToken →
  emitted (roles this id clientsIds includeRealmRoles) log =
  TokenGet :: (Http <$> roles_requests this id clientsIds includeRealmRoles accessToken).
Proof.
  intros Htoken. apply emitted_app. by rewrite roles_run, Htoken.
Qed.

Lemma roles_emitted_http this id clientsIds includeRealmRoles log r :
  Http r ∈ emitted (roles this id clientsIds includeRealmRoles) log →
  ∃ accessToken,
    token this log = fulfilled accessToken ∧
    r ∈ roles_requests this id clientsIds includeRealmRoles accessToken.
Proof.
  intros Hr. destruct (token this log) as [accessToken|e] eqn:Htoken.
  - exists accessToken. split; [done|].
    rewrite (roles_emitted _ _ _ _ _ _ Htoken) in Hr.
    apply elem_of_cons in Hr as [Hr|Hr]; [discriminate|].
    apply list_elem_of_fmap in Hr as (r' & [= ->] & Hr'). done.
  - assert (Hrun := roles_run this id clientsIds includeRealmRoles log).
    rewrite Htoken in Hrun.
    rewrite (emitted_app _ _ _ (f_equal snd Hrun)) in Hr. set_solver.
Qed.

Lemma roles_requests_shape this id clientsIds includeRealmRoles accessToken r :
  r ∈ roles_requests this id clientsIds includeRealmRoles accessToken →
  method r = GET ∧ body r = NoBody ∧ headers r = bearer accessToken ∧
  ((∃ cid, cid ∈ clientsIds ∧
           url r = baseUrl this +:+ "/" +:+ id +:+ "/role-mappings/clients/" +:+ cid
                   +:+ "/composite") ∨
   (includeRealmRoles = true ∧
    url r = baseUrl this +:+ "/" +:+ id +:+ "/role-mappings/realm/composite")).
Proof.
  unfold roles_requests. intros Hr. apply elem_of_app in Hr as [Hr|Hr].
  - apply list_elem_of_fmap in Hr as (cid & -> & Hcid). cbn. eauto 10.
  - destruct includeRealmRoles; [|set_solver].
    apply list_elem_of_singleton in Hr as ->. cbn. eauto 10.
Qed.

(** The requests [addAttributes] can issue: the read, authorised by the
    token obtained inside [getAttributes], and the write, authorised by the
    token obtained first. *)
Lemma addAttributes_emitted_http this id attributes log r :
  Http r ∈ emitted (addAttributes this id attributes) log →
  ∃ first, token this log = fulfilled first ∧
    ((∃ second, token this (log ++ [TokenGet]) = fulfilled second ∧
                r = user_get this id second) ∨
     (∃ merged, r = attributes_put this id first merged)).
Proof.
  intros Hr. assert (Hrun := addAttributes_run this id attributes log).
  destruct (token this log) as [first|e].
  - exists first. split; [done|].
    assert (Hget := getAttributes_run this id (log ++ [TokenGet])).
    destruct (token this (log ++ [TokenGet])) as [second|e].
    + cbv zeta in Hget.
      destruct (request this _ (user_get this id second)) as [response|e];
        rewrite Hget in Hrun; cbv zeta in Hrun;
        apply (f_equal snd) in Hrun; cbn [snd] in Hrun;
        rewrite <- ?app_assoc in Hrun;
        rewrite (emitted_app _ _ _ Hrun) in Hr.
      * unfold parsed_attributes in Hr.
        destruct (and_then _ _); cbn in Hr; set_solver.
      * set_solver.
    + rewrite Hget in Hrun. apply (f_equal snd) in Hrun. cbn [snd] in Hrun.
      rewrite <- app_assoc in Hrun.
      rewrite (emitted_app _ _ _ Hrun) in Hr. set_solver.
  - rewrite (emitted_app _ _ _ (f_equal snd Hrun)) in Hr. set_solver.
Qed.

(** X1: when the token supplier rejects, every public method rejects with
    the supplier's reason and sends nothing: the supplier is consulted
    once and no HTTP request is issued. *)
Theorem token_failure_aborts this log e :
  token this log = rejected e →
  (∀ id, details this id log = (rejected e, log ++ [TokenGet])) ∧
  (∀ id clientsIds includeRealmRoles,
     roles this id clientsIds includeRealmRoles log = (rejected e, log ++ [TokenGet])) ∧
  (∀ user, create this user log = (rejected e, log ++ [TokenGet])) ∧
  (∀ id, getAttributes this id log = (rejected e, log ++ [TokenGet])) ∧
  (∀ id attributes, addAttributes this id attributes log = (rejected e, log ++ [TokenGet])).
Proof.
  intros Htoken. split_and!; intros.
  - by rewrite details_run, Htoken.
  - by rewrite roles_run, Htoken.
  - by rewrite create_run, Htoken.
  - by rewrite getAttributes_run, Htoken.
  - by rewrite addAttributes_run, Htoken.
Qed.

Lemma token_failure_aborts_witness :
  let this := expired_manager [ok JNull] in
  token this [] = rejected (Thrown "invalid_grant") ∧
  create this bob [] = (rejected (Thrown "invalid_grant"), [TokenGet]) ∧
  roles this "u1" ["clientA"] true [] = (rejected (Thrown "invalid_grant"), [TokenGet]).
Proof.
  cbv zeta. split; [reflexivity|].
  pose proof (token_failure_aborts (expired_manager [ok JNull]) []
                (Thrown "invalid_grant") eq_refl) as (_ & Hroles & Hcreate & _).
  split; [exact (Hcreate bob) | exact (Hroles "u1" ["clientA"] true)].
Defined.

Lemma user_get_url this id accessToken :
  url (user_get this id accessToken) =
  "/auth/admin/realms/" +:+ realm (config this) +:+ "/users" +:+ "/" +:+ id.
Proof.
  unfold user_get, baseUrl. cbn [url].
  generalize (realm (config this)) as r. intros r.
  change ("/auth/admin/realms/" +:+ r +:+ "/users" +:+ "/" +:+ id)
    with ("/auth/admin/realms/" +:+ (r +:+ ("/users" +:+ "/" +:+ id))).
  change (("/auth/admin/realms/" +:+ r +:+ "/users") +:+ "/" +:+ id)
    with ("/auth/admin/realms/" +:+ ((r +:+ "/users") +:+ "/" +:+ id)).
  f_equal. induction r as [|c r IH]; [done|].
  change (String c r +:+ ?x) with (String c (r +:+ x)).
  change ((String c (r +:+ "/users")) +:+ ?x) with (String c ((r +:+ "/users") +:+ x)).
  by rewrite IH.
Qed.

(** X2: with a token, [details] sends exactly one request, a GET for
    [/auth/admin/realms/<realm>/users/<id>], and passes on what comes back:
    the [data] of the response, [undefined] when the transport fulfils
    without a response, and the transport's own reason when it rejects. *)
Theorem details_passes_through this id log accessToken :
  token this log = fulfilled accessToken →
  emitted (details this id) log = [TokenGet; Http (user_get this id accessToken)] ∧
  url (user_get this id accessToken) =
    "/auth/admin/realms/" +:+ realm (config this) +:+ "/users" +:+ "/" +:+ id ∧
  (details this id log).1 =
    match request this (log ++ [TokenGet]) (user_get this id accessToken) with
    | fulfilled (Some response) => fulfilled (data response)
    | fulfilled None => fulfilled JUndefined
    | rejected e => rejected e
    end.
Proof.
  intros Htoken. assert (Hrun := details_run this id log).
  rewrite Htoken in Hrun. cbv zeta in Hrun.
  split_and!.
  - apply emitted_app. rewrite Hrun. by destruct (request this _ _).
  - apply user_get_url.
  - rewrite Hrun. by destruct (request this _ _) as [[response|]|e].
Qed.

Lemma details_passes_through_witness :
  let this := manager [fulfilled None] in
  token this [] = fulfilled "t0" ∧
  url (user_get this "u1" "t0") = "/auth/admin/realms/demo/users/u1" ∧
  (details this "u1" []).1 = fulfilled JUndefined.
Proof.
  cbv zeta. split; [reflexivity|].
  pose proof (details_passes_through (manager [fulfilled None]) "u1" [] "t0" eq_refl)
    as (_ & Hurl & Hresult).
  split; [exact Hurl | exact Hresult].
Defined.

(** X3: the three reading methods never write: every request that
    [details], [roles] or [getAttributes] issues is a GET without a
    body. *)
Theorem reads_only_get this log r :
  (∀ id, Http r ∈ emitted (details this id) log → method r = GET ∧ body r = NoBody) ∧
  (∀ id clientsIds includeRealmRoles,
     Http r ∈ emitted (roles this id clientsIds includeRealmRoles) log →
     method r = GET ∧ body r = NoBody) ∧
  (∀ id, Http r ∈ emitted (getAttributes this id) log → method r = GET ∧ body r = NoBody).
Proof.
  split_and!.
  - intros id (accessToken & _ & ->)%details_emitted_http. done.
  - intros id clientsIds includeRealmRoles (accessToken & _ & Hr)%roles_emitted_http.
    apply roles_requests_shape in Hr. tauto.
  - intros id (accessToken & _ & ->)%getAttributes_emitted_http. done.
Qed.

Lemma reads_only_get_witness :
  let this := manager [failed "500"; ok (JArr [role "admin"])] in
  let r := {| method := GET;
              url := "/auth/admin/realms/demo/users/u1/role-mappings/realm/composite";
              body := NoBody; headers := bearer "t0" |} in
  Http r ∈ emitted (roles this "u1" ["clientA"] true) [] ∧
  method r = GET ∧ body r = NoBody.
Proof.
  cbv zeta.
  assert (Hin : Http {| method := GET;
                        url := "/auth/admin/realms/demo/users/u1/role-mappings/realm/composite";
                        body := NoBody; headers := bearer "t0" |}
                ∈ emitted (roles (manager [failed "500"; ok (JArr [role "admin"])])
                                 "u1" ["clientA"] true) []).
  { do 2 apply list_elem_of_further. apply list_elem_of_here. }
  split; [exact Hin|].
  exact (proj1 (proj2 (reads_only_get (manager [failed "500"; ok (JArr [role "admin"])]) [] _))
           "u1" ["clientA"] true Hin).
Defined.

(** X4: [details], [roles], [create] and [getAttributes] build their
    headers once and reuse them: every request of one call carries
    [Authorization: Bearer <token>] for the one token obtained at its
    start, also the requests of a fan-out and the follow-ups of
    [create]. *)
Theorem one_header_per_call this log accessToken r :
  token this log = fulfilled accessToken →
  (∀ id, Http r ∈ emitted (details this id) log →
         Authorization (headers r) = "Bearer " +:+ accessToken) ∧
  (∀ id clientsIds includeRealmRoles,
     Http r ∈ emitted (roles this id clientsIds includeRealmRoles) log →
     Authorization (headers r) = "Bearer " +:+ accessToken) ∧
  (∀ user, Http r ∈ emitted (create this user) log →
           Authorization (headers r) = "Bearer " +:+ accessToken) ∧
  (∀ id, Http r ∈ emitted (getAttributes this id) log →
         Authorization (headers r) = "Bearer " +:+ accessToken).
Proof.
  intros Htoken. split_and!.
  - intros id (t & Ht & ->)%details_emitted_http. cbn. congruence.
  - intros id clientsIds includeRealmRoles (t & Ht & Hr)%roles_emitted_http.
    apply roles_requests_shape in Hr as (_ & _ & -> & _). cbn. congruence.
  - intros user (t & Ht & [->|[popped [->| ->]]])%create_emitted_http;
      cbn; congruence.
  - intros id (t & Ht & ->)%getAttributes_emitted_http. cbn. congruence.
Qed.

Lemma one_header_per_call_witness :
  token outage_manager [] = fulfilled "t0" ∧
  Http (verify_email_put outage_manager "t0" (Some "abc-1"))
    ∈ emitted (create outage_manager bob) [] ∧
  Authorization (headers (verify_email_put outage_manager "t0" (Some "abc-1"))) = "Bearer t0".
Proof.
  assert (Hin : Http (verify_email_put outage_manager "t0" (Some "abc-1"))
                ∈ emitted (create outage_manager bob) []).
  { do 3 apply list_elem_of_further. apply list_elem_of_here. }
  split; [reflexivity|]. split; [exact Hin|].
  exact (proj1 (proj2 (proj2
           (one_header_per_call outage_manager [] "t0"
              (verify_email_put outage_manager "t0" (Some "abc-1")) eq_refl)))
           bob Hin).
Defined.

(** X5: every request of every public method is addressed to the base
    URL that the constructor derives from the configured realm, or to a
    path below it: the URL is the base URL itself, or the base URL, a
    slash and the rest of the path. *)
Theorem requests_stay_under_base_url this log r :
  (∀ id, Http r ∈ emitted (details this id) log →
         url r = baseUrl this ∨ ∃ rest, url r = baseUrl this +:+ "/" +:+ rest) ∧
  (∀ id clientsIds includeRealmRoles,
     Http r ∈ emitted (roles this id clientsIds includeRealmRoles) log →
     url r = baseUrl this ∨ ∃ rest, url r = baseUrl this +:+ "/" +:+ rest) ∧
  (∀ user, Http r ∈ emitted (create this user) log →
           url r = baseUrl this ∨ ∃ rest, url r = baseUrl this +:+ "/" +:+ rest) ∧
  (∀ id, Http r ∈ emitted (getAttributes this id) log →
         url r = baseUrl this ∨ ∃ rest, url r = baseUrl this +:+ "/" +:+ rest) ∧
  (∀ id attributes, Http r ∈ emitted (addAttributes this id attributes) log →
         url r = baseUrl this ∨ ∃ rest, url r = baseUrl this +:+ "/" +:+ rest).
Proof.
  split_and!.
  - intros id (t & _ & ->)%details_emitted_http. right. by eexists.
  - intros id clientsIds includeRealmRoles (t & _ & Hr)%roles_emitted_http.
    apply roles_requests_shape in Hr as (_ & _ & _ & [(cid & _ & ->)|[_ ->]]);
      right; by eexists.
  - intros user (t & _ & [->|[popped [->| ->]]])%create_emitted_http.
    + by left.
    + right. by eexists.
    + right. by eexists.
  - intros id (t & _ & ->)%getAttributes_emitted_http. right. by eexists.
  - intros id attributes
      (t & _ & [(t' & _ & ->)|(merged & ->)])%addAttributes_emitted_http;
      right; by eexists.
Qed.

Lemma requests_stay_under_base_url_witness :
  Http (reset_password_put outage_manager bob "t0" (Some "abc-1"))
    ∈ emitted (create outage_manager bob) [] ∧
  (url (reset_password_put outage_manager bob "t0" (Some "abc-1")) = baseUrl outage_manager ∨
   ∃ rest, url (reset_password_put outage_manager bob "t0" (Some "abc-1")) =
           baseUrl outage_manager +:+ "/" +:+ rest).
Proof.
  assert (Hin : Http (reset_password_put outage_manager bob "t0" (Some "abc-1"))
                ∈ emitted (create outage_manager bob) []).
  { do 2 apply list_elem_of_further. apply list_elem_of_here. }
  split; [exact Hin|].
  exact (proj1 (proj2 (proj2
           (requests_stay_under_base_url outage_manager []
              (reset_password_put outage_manager bob "t0" (Some "abc-1")))))
           bob Hin).
Defined.

(** ** The fan-out of [roles] *)

Lemma requests_of_http (requests : list Request) :
  requests_of (Http <$> requests) = requests.
Proof.
  induction requests as [|r requests IH]; [done|].
  change (r :: requests_of (Http <$> requests) = r :: requests). by rewrite IH.
Qed.

(** X6: with a token, [roles] sends one GET per entry of [clientsIds], in
    the order of the array, to that client's composite role mapping, then
    one GET to the realm's composite role mapping when [includeRealmRoles]
    is set, and nothing else. *)
Theorem roles_fan_out this id clientsIds (includeRealmRoles : bool) log accessToken :
  token this log = fulfilled accessToken →
  url <$> requests_of (emitted (roles this id clientsIds includeRealmRoles) log) =
    ((fun cid => baseUrl this +:+ "/" +:+ id +:+ "/role-mappings/clients/" +:+ cid
                 +:+ "/composite") <$> clientsIds)
    ++ (if includeRealmRoles
        then [baseUrl this +:+ "/" +:+ id +:+ "/role-mappings/realm/composite"]
        else []) ∧
  length (requests_of (emitted (roles this id clientsIds includeRealmRoles) log)) =
    length clientsIds + (if includeRealmRoles then 1 else 0).
Proof.
  intros Htoken. rewrite (roles_emitted _ _ _ _ _ _ Htoken).
  change (requests_of (TokenGet :: ?l)) with (requests_of l).
  rewrite requests_of_http. unfold roles_requests. split.
  - rewrite fmap_app, <- list_fmap_compose. by destruct includeRealmRoles.
  - rewrite length_app, length_fmap. by destruct includeRealmRoles.
Qed.

Lemma roles_fan_out_witness :
  let this := manager [failed "500"; ok (JArr [role "admin"]); ok (JArr [])] in
  token this [] = fulfilled "t0" ∧
  url <$> requests_of (emitted (roles this "u1" ["clientA"; "clientB"] true) []) =
    [ "/auth/admin/realms/demo/users/u1/role-mappings/clients/clientA/composite";
      "/auth/admin/realms/demo/users/u1/role-mappings/clients/clientB/composite";
      "/auth/admin/realms/demo/users/u1/role-mappings/realm/composite" ] ∧
  length (requests_of (emitted (roles this "u1" ["clientA"; "clientB"] true) [])) = 3.
Proof.
  cbv zeta. split; [reflexivity|].
  exact (roles_fan_out (manager [failed "500"; ok (JArr [role "admin"]); ok (JArr [])])
           "u1" ["clientA"; "clientB"] true [] "t0" eq_refl).
Defined.

Lemma is_success_spec (p : RolesPromise) :
  is_success p = true ↔ ∃ response, p = fulfilled (Some response).
Proof.
  destruct p as [[response|]|e]; cbn; split; try done; eauto.
  - intros [response [=]].
  - intros [response [=]].
Qed.

Lemma filter_success_responses (batch : list RolesPromise) :
  List.filter is_success batch =
  List.filter (fun p => match p with fulfilled (Some _) => true | _ => false end) batch.
Proof. apply List.filter_ext. by intros [[response|]|e]. Qed.

(** X7: with a token, [roles] never rejects, whatever the transport
    answers.  It fulfils with the settled results of exactly those requests
    of the batch that were fulfilled with a response, each as often as it
    occurs and in the order of the batch; a rejected request and a request
    fulfilled without a response are both left out. *)
Theorem roles_keeps_fulfilled_responses
    this id clientsIds (includeRealmRoles : bool) log accessToken :
  token this log = fulfilled accessToken →
  ∃ items,
    (roles this id clientsIds includeRealmRoles log).1 = fulfilled items ∧
    items =
      SettledItem <$>
        List.filter (fun p => match p with fulfilled (Some _) => true | _ => false end)
                    (roles_batch this id clientsIds includeRealmRoles log accessToken) ∧
    length items ≤ length clientsIds + (if includeRealmRoles then 1 else 0) ∧
    ∀ item, item ∈ items ↔
      ∃ response,
        item = SettledItem (fulfilled (Some response)) ∧
        fulfilled (Some response)
          ∈ roles_batch this id clientsIds includeRealmRoles log accessToken.
Proof.
  intros Htoken. rewrite roles_run, Htoken. cbn [fst].
  eexists. split; [reflexivity|]. split; [by rewrite filter_success_responses|]. split.
  - rewrite length_fmap.
    etrans; [apply List.filter_length_le|].
    unfold roles_batch, roles_requests.
    rewrite issue_all_length, length_app, length_fmap.
    by destruct includeRealmRoles.
  - intros item. rewrite list_elem_of_fmap. split.
    + intros (p & -> & Hp). apply list_elem_of_In, List.filter_In in Hp as [Hin Hp].
      apply is_success_spec in Hp as [response ->].
      exists response. split; [done|]. by apply list_elem_of_In.
    + intros (response & -> & Hin). eexists. split; [done|].
      apply list_elem_of_In, List.filter_In. split; [by apply list_elem_of_In|done].
Qed.

Lemma roles_keeps_fulfilled_responses_witness :
  let this := manager [ok (JArr [role "read"]); failed "500"; fulfilled None;
                       ok (JArr [role "read"])] in
  token this [] = fulfilled "t0" ∧
  ∃ items,
    (roles this "u1" ["clientA"; "clientB"; "clientC"] true []).1 = fulfilled items ∧
    items =
      SettledItem <$>
        List.filter (fun p => match p with fulfilled (Some _) => true | _ => false end)
                    (roles_batch this "u1" ["clientA"; "clientB"; "clientC"] true [] "t0") ∧
    length items ≤ 4 ∧
    ∀ item, item ∈ items ↔
      ∃ response,
        item = SettledItem (fulfilled (Some response)) ∧
        fulfilled (Some response)
          ∈ roles_batch this "u1" ["clientA"; "clientB"; "clientC"] true [] "t0".
Proof.
  cbv zeta. split; [reflexivity|].
  exact (roles_keeps_fulfilled_responses
           (manager [ok (JArr [role "read"]); failed "500"; fulfilled None;
                     ok (JArr [role "read"])])
           "u1" ["clientA"; "clientB"; "clientC"] true [] "t0" eq_refl).
Defined.

(** Two scopes that answer alike are both kept. *)
Lemma roles_keeps_equal_answers :
  (roles (manager [ok (JArr [role "read"]); failed "500"; fulfilled None;
                   ok (JArr [role "read"])])
         "u1" ["clientA"; "clientB"; "clientC"] true []).1 =
  fulfilled [ SettledItem (ok (JArr [role "read"])); SettledItem (ok (JArr [role "read"])) ].
Proof. reflexivity. Qed.

(** X8: called with the defaults, no client id and no realm roles,
    [roles] consults the token supplier, sends no request and fulfils with
    the empty list. *)
Theorem roles_without_scopes this id log accessToken :
  token this log = fulfilled accessToken →
  roles this id [] false log = (fulfilled [], log ++ [TokenGet]).
Proof. intros Htoken. by rewrite roles_run, Htoken. Qed.

Lemma roles_without_scopes_witness :
  token (manager [ok (JArr [role "admin"])]) [] = fulfilled "t0" ∧
  roles (manager [ok (JArr [role "admin"])]) "u1" [] false [] = (fulfilled [], [TokenGet]).
Proof.
  split; [reflexivity|].
  exact (roles_without_scopes (manager [ok (JArr [role "admin"])]) "u1" [] "t0" eq_refl).
Defined.

(** ** The steps of [create] *)

Lemma split_slash_nonempty (s : string) : split_slash s ≠ [].
Proof.
  destruct s as [|c s]; [done|]. cbn.
  destruct (Ascii.eqb c "/"); [done|]. by destruct (split_slash s).
Qed.

Lemma split_slash_no_slash (s : string) : has_slash s = false → split_slash s = [s].
Proof.
  induction s as [|c s IH]; [done|]. cbn.
  destruct (Ascii.eqb c "/"); [done|]. cbn. intros Hs. by rewrite IH.
Qed.

Lemma split_slash_app (s1 s2 : string) :
  split_slash (s1 +:+ "/" +:+ s2) = split_slash s1 ++ split_slash s2.
Proof.
  induction s1 as [|c s1 IH]; [done|].
  change (String c s1 +:+ "/" +:+ s2) with (String c (s1 +:+ "/" +:+ s2)).
  cbn [split_slash]. rewrite IH.
  destruct (Ascii.eqb c "/"); [done|].
  pose proof (split_slash_nonempty s1). by destruct (split_slash s1).
Qed.

Lemma split_slash_last (prefix id : string) :
  has_slash id = false → last (split_slash (prefix +:+ "/" +:+ id)) = Some id.
Proof.
  intros Hid. by rewrite split_slash_app, (split_slash_no_slash id Hid), last_snoc.
Qed.

(** X9: [location.split('/').pop()] is the part of the location after its
    last slash: for an id without a slash, it is the whole location when
    that is the id, and the id when the location is any prefix, a slash and
    the id.  A location that ends in a slash gives the empty id. *)
Theorem pop_split_last_segment (id : string) :
  has_slash id = false →
  pop (split_slash id) = Some id ∧
  ∀ prefix, pop (split_slash (prefix +:+ "/" +:+ id)) = Some id.
Proof.
  intros Hid. unfold pop. split.
  - by rewrite split_slash_no_slash.
  - intros prefix. by apply split_slash_last.
Qed.

Lemma pop_split_last_segment_witness :
  has_slash "" = false ∧
  has_slash "abc-1" = false ∧
  pop (split_slash ("http://kc/auth/admin/realms/demo/users" +:+ "/" +:+ "abc-1")) =
    Some "abc-1" ∧
  pop (split_slash ("http://kc/auth/admin/realms/demo/users/abc-1" +:+ "/" +:+ "")) =
    Some "".
Proof.
  split; [reflexivity|]. split; [reflexivity|]. split.
  - exact (proj2 (pop_split_last_segment "abc-1" eq_refl)
             "http://kc/auth/admin/realms/demo/users").
  - exact (proj2 (pop_split_last_segment "" eq_refl)
             "http://kc/auth/admin/realms/demo/users/abc-1").
Defined.

(** X10: [split] never returns an empty array, so [pop] never yields
    [undefined]: whenever the creation response has a location header the
    id is extracted, and it contains no slash. *)
Theorem location_id_total (response : AxiosResponse) (l : string) :
  location response = Some l →
  ∃ id, location_id (Some response) = fulfilled (Some id) ∧ has_slash id = false.
Proof.
  intros Hl. unfold location_id, pop. rewrite Hl.
  assert (∃ id, last (split_slash l) = Some id ∧ has_slash id = false) as (id & -> & Hid);
    [|by exists id].
  clear. induction l as [|c l (id & Hlast & Hid)]; [by exists ""|].
  cbn [split_slash]. destruct (Ascii.eqb c "/") eqn:Hc.
  - exists id. split; [|done].
    pose proof (split_slash_nonempty l). by destruct (split_slash l).
  - pose proof (split_slash_nonempty l).
    destruct (split_slash l) as [|seg [|seg' segs]]; [done | |].
    + injection Hlast as ->. exists (String c id). split; [done|]. cbn. by rewrite Hc.
    + exists id. by split.
Qed.

Lemma location_id_total_witness :
  location {| data := JUndefined; location := Some "users/" |} = Some "users/" ∧
  ∃ id, location_id (Some {| data := JUndefined; location := Some "users/" |}) =
          fulfilled (Some id) ∧ has_slash id = false.
Proof.
  split; [reflexivity|].
  exact (location_id_total {| data := JUndefined; location := Some "users/" |} "users/" eq_refl).
Defined.

(** X11: the follow-ups of [create] are addressed to the extracted id:
    after the POST to the base URL come a PUT to [<base>/<id>/reset-password]
    and a PUT to [<base>/<id>/send-verify-email], in this order, where
    [<id>] is the last segment of the location header. *)
Theorem create_follow_ups_address_new_user
    this user log accessToken response prefix id :
  token this log = fulfilled accessToken →
  request this (log ++ [TokenGet]) (create_post this user accessToken) =
    fulfilled (Some response) →
  location response = Some (prefix +:+ "/" +:+ id) →
  has_slash id = false →
  (fun r => (method r, url r)) <$> requests_of (emitted (create this user) log) =
  [ (POST, baseUrl this);
    (PUT, baseUrl this +:+ "/" +:+ id +:+ "/reset-password");
    (PUT, baseUrl this +:+ "/" +:+ id +:+ "/send-verify-email") ].
Proof.
  intros Htoken Hpost Hlocation Hid.
  assert (Hrun := create_run this user log).
  rewrite Htoken in Hrun. cbv zeta in Hrun. rewrite Hpost in Hrun.
  unfold location_id in Hrun. rewrite Hlocation in Hrun.
  unfold pop in Hrun. rewrite (split_slash_last prefix id Hid) in Hrun.
  by rewrite (emitted_app _ _ _ (f_equal snd Hrun)).
Qed.

Lemma create_follow_ups_address_new_user_witness :
  token outage_manager [] = fulfilled "t0" ∧
  request outage_manager [TokenGet] (create_post outage_manager bob "t0") =
    fulfilled (Some {| data := JUndefined;
                       location := Some ("http://kc/auth/admin/realms/demo/users"
                                         +:+ "/" +:+ "abc-1") |}) ∧
  has_slash "abc-1" = false ∧
  (fun r => (method r, url r)) <$> requests_of (emitted (create outage_manager bob) []) =
  [ (POST, "/auth/admin/realms/demo/users");
    (PUT, "/auth/admin/realms/demo/users/abc-1/reset-password");
    (PUT, "/auth/admin/realms/demo/users/abc-1/send-verify-email") ].
Proof.
  split; [reflexivity|]. split; [reflexivity|]. split; [reflexivity|].
  exact (create_follow_ups_address_new_user outage_manager bob [] "t0"
           {| data := JUndefined;
              location := Some ("http://kc/auth/admin/realms/demo/users" +:+ "/" +:+ "abc-1") |}
           "http://kc/auth/admin/realms/demo/users" "abc-1"
           eq_refl eq_refl eq_refl eq_refl).
Defined.

(** X12: when the creation POST is answered without a location header,
    or fulfilled without a response, [create] rejects with a TypeError
    after the POST: the account request has been sent, and neither the
    password nor the verification e-mail request follows. *)
Theorem create_without_location_stops this user log accessToken response :
  token this log = fulfilled accessToken →
  request this (log ++ [TokenGet]) (create_post this user accessToken) =
    fulfilled response →
  (∀ r, response = Some r → location r = None) →
  create this user log =
  (rejected TypeError, log ++ [TokenGet; Http (create_post this user accessToken)]).
Proof.
  intros Htoken Hpost Hlocation.
  rewrite create_run, Htoken. cbv zeta. rewrite Hpost.
  destruct response as [r|]; cbn; [|done].
  by rewrite (Hlocation r eq_refl).
Qed.

Lemma create_without_location_stops_witness :
  let this := manager [ok JNull; ok JNull; ok JNull] in
  token this [] = fulfilled "t0" ∧
  request this [TokenGet] (create_post this bob "t0") = ok JNull ∧
  create this bob [] = (rejected TypeError, [TokenGet; Http (create_post this bob "t0")]).
Proof.
  cbv zeta. split; [reflexivity|]. split; [reflexivity|].
  refine (create_without_location_stops (manager [ok JNull; ok JNull; ok JNull]) bob []
            "t0" (Some {| data := JNull; location := None |}) eq_refl eq_refl _).
  intros r [= <-]. reflexivity.
Defined.

(** X13: when the creation POST is rejected, [create] rejects with the
    transport's reason and sends no follow-up. *)
Theorem create_post_rejected_stops this user log accessToken e :
  token this log = fulfilled accessToken →
  request this (log ++ [TokenGet]) (create_post this user accessToken) = rejected e →
  create this user log =
  (rejected e, log ++ [TokenGet; Http (create_post this user accessToken)]).
Proof.
  intros Htoken Hpost. rewrite create_run, Htoken. cbv zeta. by rewrite Hpost.
Qed.

Lemma create_post_rejected_stops_witness :
  let this := manager [failed "409"; ok JNull] in
  token this [] = fulfilled "t0" ∧
  request this [TokenGet] (create_post this bob "t0") = rejected (Thrown "409") ∧
  create this bob [] =
    (rejected (Thrown "409"), [TokenGet; Http (create_post this bob "t0")]).
Proof.
  cbv zeta. split; [reflexivity|]. split; [reflexivity|].
  exact (create_post_rejected_stops (manager [failed "409"; ok JNull]) bob [] "t0"
           (Thrown "409") eq_refl eq_refl).
Defined.

(** X14: the credential that [create] sends is the [password] property
    of the user, with type ["password"]; for a user object without that
    property the reset-password request is sent all the same, with the
    value [undefined]. *)
Theorem create_forwards_password this user log r type credential temporary :
  Http r ∈ emitted (create this user) log →
  body r = CredentialBody type credential temporary →
  type = "password" ∧
  credential = default JUndefined (user !! "password") ∧
  (user !! "password" = None → credential = JUndefined).
Proof.
  intros Hr Hbody.
  apply create_emitted_http in Hr as (accessToken & _ & [->|[popped [->| ->]]]);
    cbn in Hbody; try discriminate Hbody.
  injection Hbody as <- <- <-. split_and!; [done | done |].
  by intros ->.
Qed.

Lemma create_forwards_password_witness :
  Http (reset_password_put outage_manager eve "t0" (Some "abc-1"))
    ∈ emitted (create outage_manager eve) [] ∧
  body (reset_password_put outage_manager eve "t0" (Some "abc-1")) =
    CredentialBody "password" JUndefined false ∧
  eve !! "password" = None ∧
  "password" = "password" ∧
  JUndefined = default JUndefined (eve !! "password") ∧
  (eve !! "password" = None → JUndefined = JUndefined).
Proof.
  assert (Hin : Http (reset_password_put outage_manager eve "t0" (Some "abc-1"))
                ∈ emitted (create outage_manager eve) []).
  { do 2 apply list_elem_of_further. apply list_elem_of_here. }
  split; [exact Hin|]. split; [reflexivity|]. split; [reflexivity|].
  exact (create_forwards_password outage_manager eve []
           (reset_password_put outage_manager eve "t0" (Some "abc-1"))
           "password" JUndefined false Hin eq_refl).
Defined.

(** ** Reading and writing attributes *)

Lemma addAttributes_full_run this id attributes log first second response :
  token this log = fulfilled first →
  token this (log ++ [TokenGet]) = fulfilled second →
  request this (log ++ [TokenGet; TokenGet]) (user_get this id second) = fulfilled response →
  let put :=
    attributes_put this id first (mergedBody (parsed_attributes response).1 attributes) in
  let log1 :=
    log ++ [TokenGet; TokenGet; Http (user_get this id second)]
        ++ (parsed_attributes response).2 in
  addAttributes this id attributes log =
  (match request this log1 put with
   | rejected e => rejected e
   | fulfilled _ => fulfilled tt
   end, log1 ++ [Http put]).
Proof.
  intros Hfirst Hsecond Hget. cbv zeta.
  rewrite addAttributes_run, Hfirst, getAttributes_run, Hsecond. cbv zeta.
  rewrite <- !app_assoc. cbn [app]. rewrite Hget.
  by rewrite <- !app_assoc.
Qed.

(** X15: [addAttributes] consults the token supplier twice and sends two
    requests: the GET of the record, authorised with the second token (the
    one obtained inside [getAttributes]), then the PUT of the merged
    attributes, authorised with the first token, obtained before the read.
    What [addAttributes] settles to is what the PUT settles to: unlike the
    follow-ups of [create], a rejected PUT rejects the call. *)
Theorem addAttributes_reads_then_writes
    this id attributes log first second response :
  token this log = fulfilled first →
  token this (log ++ [TokenGet]) = fulfilled second →
  request this (log ++ [TokenGet; TokenGet]) (user_get this id second) = fulfilled response →
  requests_of (emitted (addAttributes this id attributes) log) =
    [ user_get this id second;
      attributes_put this id first (mergedBody (parsed_attributes response).1 attributes) ] ∧
  token_gets (emitted (addAttributes this id attributes) log) = 2 ∧
  (addAttributes this id attributes log).1 =
    match request this
            (log ++ [TokenGet; TokenGet; Http (user_get this id second)]
                 ++ (parsed_attributes response).2)
            (attributes_put this id first
               (mergedBody (parsed_attributes response).1 attributes)) with
    | rejected e => rejected e
    | fulfilled _ => fulfilled tt
    end.
Proof.
  intros Hfirst Hsecond Hget.
  assert (Hrun := addAttributes_full_run this id attributes log _ _ _ Hfirst Hsecond Hget).
  cbv zeta in Hrun. split_and!.
  - apply (f_equal snd) in Hrun. cbn [snd] in Hrun. rewrite <- app_assoc in Hrun.
    rewrite (emitted_app _ _ _ Hrun).
    unfold parsed_attributes. by destruct (and_then _ _).
  - apply (f_equal snd) in Hrun. cbn [snd] in Hrun. rewrite <- app_assoc in Hrun.
    rewrite (emitted_app _ _ _ Hrun).
    unfold parsed_attributes. by destruct (and_then _ _).
  - by rewrite Hrun.
Qed.

Lemma addAttributes_reads_then_writes_witness :
  let this :=
    rotating_manager [ok (JObj [("attributes", JObj [("team", JArr [JStr "blue"])])]);
                      failed "403"] in
  let response :=
    Some {| data := JObj [("attributes", JObj [("team", JArr [JStr "blue"])])];
            location := None |} in
  token this [] = fulfilled "t0" ∧
  token this [TokenGet] = fulfilled "t1" ∧
  request this [TokenGet; TokenGet] (user_get this "u1" "t1") = fulfilled response ∧
  requests_of (emitted (addAttributes this "u1" incoming_attributes) []) =
    [ user_get this "u1" "t1";
      attributes_put this "u1" "t0"
        (mergedBody [ {| key := "team"; value := JArr [JStr "blue"] |} ] incoming_attributes) ] ∧
  token_gets (emitted (addAttributes this "u1" incoming_attributes) []) = 2 ∧
  (addAttributes this "u1" incoming_attributes []).1 = rejected (Thrown "403").
Proof.
  cbv zeta. split; [reflexivity|]. split; [reflexivity|]. split; [reflexivity|].
  exact (addAttributes_reads_then_writes
           (rotating_manager
              [ok (JObj [("attributes", JObj [("team", JArr [JStr "blue"])])]); failed "403"])
           "u1" incoming_attributes [] "t0" "t1"
           (Some {| data := JObj [("attributes", JObj [("team", JArr [JStr "blue"])])];
                    location := None |})
           eq_refl eq_refl eq_refl).
Defined.

(** X16: when the read inside [addAttributes] rejects, because the second
    token or the GET of the record is refused, [addAttributes] rejects
    with the same reason and writes nothing: no PUT is sent. *)
Theorem addAttributes_failed_read_writes_nothing
    this id attributes log first e :
  token this log = fulfilled first →
  (getAttributes this id (log ++ [TokenGet])).1 = rejected e →
  (addAttributes this id attributes log).1 = rejected e ∧
  ∀ r, Http r ∈ emitted (addAttributes this id attributes) log → method r = GET.
Proof.
  intros Hfirst Hread.
  assert (Hrun := addAttributes_run this id attributes log). rewrite Hfirst in Hrun.
  assert (Hget := getAttributes_run this id (log ++ [TokenGet])).
  destruct (getAttributes this id (log ++ [TokenGet])) as [[previous|e'] log1];
    cbn [fst] in Hread; [discriminate|]. injection Hread as ->.
  split; [by rewrite Hrun|].
  intros r Hr.
  destruct (token this (log ++ [TokenGet])) as [second|e'].
  - cbv zeta in Hget.
    destruct (request this _ (user_get this id second)) as [response|e'];
      [discriminate|].
    injection Hget as _ ->. apply (f_equal snd) in Hrun. cbn [snd] in Hrun.
    rewrite <- app_assoc in Hrun. rewrite (emitted_app _ _ _ Hrun) in Hr.
    cbn in Hr. set_solver.
  - injection Hget as _ ->. apply (f_equal snd) in Hrun. cbn [snd] in Hrun.
    rewrite <- app_assoc in Hrun. rewrite (emitted_app _ _ _ Hrun) in Hr.
    set_solver.
Qed.

Lemma addAttributes_failed_read_writes_nothing_witness :
  let this := manager [failed "404"; ok JNull] in
  token this [] = fulfilled "t0" ∧
  (getAttributes this "u1" [TokenGet]).1 = rejected (Thrown "404") ∧
  (addAttributes this "u1" incoming_attributes []).1 = rejected (Thrown "404") ∧
  ∀ r, Http r ∈ emitted (addAttributes this "u1" incoming_attributes) [] → method r = GET.
Proof.
  cbv zeta. split; [reflexivity|]. split; [reflexivity|].
  exact (addAttributes_failed_read_writes_nothing (manager [failed "404"; ok JNull])
           "u1" incoming_attributes [] "t0" (Thrown "404") eq_refl eq_refl).
Defined.

(** X17: when the record is fetched but its attributes cannot be
    enumerated (absent or [null]), [addAttributes] still writes: the PUT
    carries the incoming attributes alone, each key with the value of its
    last occurrence. *)
Theorem addAttributes_unreadable_writes_incoming
    this id attributes log first second response :
  token this log = fulfilled first →
  token this (log ++ [TokenGet]) = fulfilled second →
  request this (log ++ [TokenGet; TokenGet]) (user_get this id second) = fulfilled response →
  attributes_unreadable response = true →
  requests_of (emitted (addAttributes this id attributes) log) =
    [ user_get this id second; attributes_put this id first (mergedBody [] attributes) ] ∧
  ∀ k, mergedBody [] attributes !! k = last_value k attributes.
Proof.
  intros Hfirst Hsecond Hget Hunreadable.
  assert (Hrun := addAttributes_full_run this id attributes log _ _ _ Hfirst Hsecond Hget).
  cbv zeta in Hrun. split.
  - apply (f_equal snd) in Hrun. cbn [snd] in Hrun. rewrite <- app_assoc in Hrun.
    rewrite (emitted_app _ _ _ Hrun).
    unfold attributes_unreadable in Hunreadable. unfold parsed_attributes.
    destruct (response_attributes response) as [[]|]; cbn; done.
  - intros k. rewrite mergedBody_lookup. by destruct (last_value k attributes).
Qed.

Lemma addAttributes_unreadable_writes_incoming_witness :
  let this := manager [ok (JObj [("id", JStr "u1")]); ok JNull] in
  let response := Some {| data := JObj [("id", JStr "u1")]; location := None |} in
  token this [] = fulfilled "t0" ∧
  token this [TokenGet] = fulfilled "t0" ∧
  request this [TokenGet; TokenGet] (user_get this "u1" "t0") = fulfilled response ∧
  attributes_unreadable response = true ∧
  requests_of (emitted (addAttributes this "u1" incoming_attributes) []) =
    [ user_get this "u1" "t0";
      attributes_put this "u1" "t0" (mergedBody [] incoming_attributes) ] ∧
  ∀ k, mergedBody [] incoming_attributes !! k = last_value k incoming_attributes.
Proof.
  cbv zeta. split; [reflexivity|]. split; [reflexivity|]. split; [reflexivity|].
  split; [reflexivity|].
  exact (addAttributes_unreadable_writes_incoming
           (manager [ok (JObj [("id", JStr "u1")]); ok JNull]) "u1" incoming_attributes []
           "t0" "t0" (Some {| data := JObj [("id", JStr "u1")]; location := None |})
           eq_refl eq_refl eq_refl eq_refl).
Defined.

(** X18: the leniency of [getAttributes] covers the parsing only.  When
    the GET of the record is rejected, [getAttributes] rejects with the
    transport's reason, and nothing is written to the console. *)
Theorem getAttributes_transport_failure_propagates this id log accessToken e :
  token this log = fulfilled accessToken →
  request this (log ++ [TokenGet]) (user_get this id accessToken) = rejected e →
  getAttributes this id log =
  (rejected e, log ++ [TokenGet; Http (user_get this id accessToken)]).
Proof.
  intros Htoken Hget. rewrite getAttributes_run, Htoken. cbv zeta. by rewrite Hget.
Qed.

Lemma getAttributes_transport_failure_propagates_witness :
  let this := manager [failed "404"] in
  token this [] = fulfilled "t0" ∧
  request this [TokenGet] (user_get this "u1" "t0") = rejected (Thrown "404") ∧
  getAttributes this "u1" [] =
    (rejected (Thrown "404"), [TokenGet; Http (user_get this "u1" "t0")]).
Proof.
  cbv zeta. split; [reflexivity|]. split; [reflexivity|].
  exact (getAttributes_transport_failure_propagates (manager [failed "404"]) "u1" []
           "t0" (Thrown "404") eq_refl eq_refl).
Defined.

(** X19: once the record is fetched, [getAttributes] writes its notice to
    the console exactly when the attributes cannot be enumerated, that is
    when it falls back to the empty list; attributes that can be enumerated
    are returned without any notice, whatever their values are. *)
Theorem getAttributes_notice_iff_unreadable this id log accessToken response :
  token this log = fulfilled accessToken →
  request this (log ++ [TokenGet]) (user_get this id accessToken) = fulfilled response →
  ConsoleLog "Unable to parse response to Attribute array"
    ∈ emitted (getAttributes this id) log
  ↔ attributes_unreadable response = true.
Proof.
  intros Htoken Hget.
  assert (Hrun := getAttributes_run this id log).
  rewrite Htoken in Hrun. cbv zeta in Hrun. rewrite Hget in Hrun.
  rewrite (emitted_app _ _ _ (f_equal snd Hrun)).
  unfold attributes_unreadable, parsed_attributes.
  destruct (response_attributes response) as [[]|]; cbn; set_solver.
Qed.

Lemma getAttributes_notice_iff_unreadable_witness :
  let this := manager [ok (JObj [("attributes", JNull)])] in
  let response := Some {| data := JObj [("attributes", JNull)]; location := None |} in
  token this [] = fulfilled "t0" ∧
  request this [TokenGet] (user_get this "u1" "t0") = fulfilled response ∧
  attributes_unreadable response = true ∧
  ConsoleLog "Unable to parse response to Attribute array"
    ∈ emitted (getAttributes this "u1") [].
Proof.
  cbv zeta. split; [reflexivity|]. split; [reflexivity|]. split; [reflexivity|].
  exact (proj2 (getAttributes_notice_iff_unreadable
                  (manager [ok (JObj [("attributes", JNull)])]) "u1" [] "t0"
                  (Some {| data := JObj [("attributes", JNull)]; location := None |})
                  eq_refl eq_refl) eq_refl).
Defined.

(** ** More on the merge *)

(** X20: adding no attribute rewrites the record as it was read: the
    object built from the entries read and an empty incoming list is the
    object those entries came from. *)
Theorem merge_nothing_rewrites_stored (props : list (string * JsVal)) :
  mergedBody (to_attribute <$> props) [] = Object_fromEntries props.
Proof.
  apply map_eq. intros k.
  by rewrite mergedBody_lookup, last_value_nil, fromEntries_lookup.
Qed.

(** X21: the object written back has exactly the keys of the two lists:
    no key of the previous or of the incoming attributes is lost, and none
    is invented. *)
Theorem merged_keys (previousAttributes attributes : list Attribute) :
  dom (mergedBody previousAttributes attributes) =
  list_to_set (keys previousAttributes) ∪ list_to_set (keys attributes).
Proof.
  apply set_eq. intros k.
  rewrite elem_of_dom, mergedBody_lookup, elem_of_union, !elem_of_list_to_set,
    !last_value_is_Some.
  destruct (last_value k attributes) as [v|]; split; eauto.
  intros [H|[v H]]; [done | discriminate].
Qed.

(** X22: two calls compose.  Merging a second incoming list into any
    enumeration of what a first merge wrote gives what one merge of the two
    incoming lists, one after the other, writes. *)
Theorem merge_compose (existing first second : list Attribute)
    (entries : list (string * JsVal)) :
  Object_fromEntries entries = mergedBody existing first →
  mergedBody (to_attribute <$> entries) second = mergedBody existing (first ++ second).
Proof.
  intros Hentries. apply map_eq. intros k.
  rewrite !mergedBody_lookup, last_value_app.
  destruct (last_value k second) as [v|]; [done|].
  by rewrite <- fromEntries_lookup, Hentries, mergedBody_lookup.
Qed.

Lemma merge_compose_witness :
  let entries := [("locale", JArr [JStr "pt"]);
                  ("team", JArr [JStr "green"; JStr "gold"])] in
  let second := [ {| key := "locale"; value := JArr [] |} ] in
  Object_fromEntries entries = mergedBody stored_attributes incoming_attributes ∧
  mergedBody (to_attribute <$> entries) second =
    mergedBody stored_attributes (incoming_attributes ++ second).
Proof.
  cbv zeta. split; [reflexivity|].
  exact (merge_compose stored_attributes incoming_attributes
           [ {| key := "locale"; value := JArr [] |} ]
           [("locale", JArr [JStr "pt"]); ("team", JArr [JStr "green"; JStr "gold"])]
           eq_refl).
Defined.

Lemma mappedAttributes_keys (l : list Attribute) (k : string) :
  k ∈ (mappedAttributes l).*1 ↔ k ∈ keys l.
Proof.
  induction l as [|a l IH] using rev_ind; [done|].
  unfold keys in *. rewrite mappedAttributes_snoc, Map_set_keys, fmap_app. cbn.
  case_decide as Hin; set_solver.
Qed.

(** X23: the [Map] holds every key of the combined list once, and holds
    no other key, however often a key occurs in the lists. *)
Theorem mappedAttributes_each_key_once (combined : list Attribute) :
  NoDup (mappedAttributes combined).*1 ∧
  (∀ k, k ∈ (mappedAttributes combined).*1 ↔ k ∈ keys combined) ∧
  length (mappedAttributes combined) ≤ length combined.
Proof.
  split_and!.
  - apply mappedAttributes_NoDup.
  - apply mappedAttributes_keys.
  - induction combined as [|a l IH] using rev_ind; [done|].
    rewrite mappedAttributes_snoc, length_app. cbn.
    rewrite <- (length_fmap fst (Map_set _ _ _)), Map_set_keys.
    case_decide; rewrite ?length_app, length_fmap; cbn; lia.
Qed.

Lemma mappedAttributes_each_key_once_witness :
  NoDup (mappedAttributes (stored_attributes ++ incoming_attributes)).*1 ∧
  ("team" ∈ (mappedAttributes (stored_attributes ++ incoming_attributes)).*1
   ↔ "team" ∈ keys (stored_attributes ++ incoming_attributes)) ∧
  length (mappedAttributes (stored_attributes ++ incoming_attributes)) ≤ 4.
Proof.
  pose proof (mappedAttributes_each_key_once (stored_attributes ++ incoming_attributes))
    as (Hnd & Hkeys & Hlen).
  split; [exact Hnd|]. split; [exact (Hkeys "team") | exact Hlen].
Defined.

Lemma Map_set_fresh k v (m : JsMap) : k ∉ m.*1 → Map_set k v m = m ++ [(k, v)].
Proof.
  induction m as [|[k' v'] m IH]; intros Hk; [done|].
  cbn in *. apply not_elem_of_cons in Hk as [Hne Hk].
  destruct (String.eqb_spec k' k) as [->|_]; [done|]. by rewrite IH.
Qed.

(** X24: attributes with distinct keys go through the [Map] unchanged:
    one entry per attribute, in the order of the list. *)
Theorem mappedAttributes_distinct_keys (combined : list Attribute) :
  NoDup (keys combined) → mappedAttributes combined = to_entry <$> combined.
Proof.
  induction combined as [|a l IH] using rev_ind; intros Hnd; [done|].
  unfold keys in Hnd. rewrite fmap_app in Hnd. cbn in Hnd.
  apply NoDup_app in Hnd as (Hl & Hdisj & _).
  rewrite mappedAttributes_snoc, fmap_app, Map_set_fresh, IH; [done | done |].
  rewrite mappedAttributes_keys. intros Hin. apply (Hdisj _ Hin). set_solver.
Qed.

Lemma mappedAttributes_distinct_keys_witness :
  NoDup (keys stored_attributes) ∧
  mappedAttributes stored_attributes =
    [("team", JArr [JStr "blue"]); ("locale", JArr [JStr "pt"])].
Proof.
  assert (Hnd : NoDup (keys stored_attributes)).
  { apply NoDup_cons. split.
    - intros Hin. apply list_elem_of_In in Hin. cbn in Hin.
      destruct Hin as [H|[]]; discriminate H.
    - apply NoDup_singleton. }
  split; [exact Hnd|].
  exact (mappedAttributes_distinct_keys stored_attributes Hnd).
Defined.

(** X25: a key keeps the place of its first occurrence.  In the [Map]
    of the combined list the keys of the previous attributes come first,
    in the order the previous attributes give them, and the keys that only
    the incoming attributes have follow, in the order of their first
    occurrence there. *)
Theorem mappedAttributes_key_order (previousAttributes attributes : list Attribute) :
  (mappedAttributes (combinedAttributes previousAttributes attributes)).*1 =
  (mappedAttributes previousAttributes).*1
  ++ filter (fun k => k ∉ keys previousAttributes) (mappedAttributes attributes).*1.
Proof.
  unfold combinedAttributes.
  induction attributes as [|a l IH] using rev_ind.
  - by rewrite app_nil_r, app_nil_r.
  - rewrite app_assoc, !mappedAttributes_snoc, !Map_set_keys, IH.
    destruct (decide (key a ∈ (mappedAttributes l).*1)) as [Hl|Hl].
    + rewrite decide_True; [done|]. rewrite <- IH.
      apply mappedAttributes_keys. unfold keys. rewrite fmap_app.
      apply elem_of_app. right. by apply mappedAttributes_keys.
    + rewrite filter_app.
      destruct (decide (key a ∈ keys previousAttributes)) as [Hp|Hp].
      * rewrite decide_True.
        -- rewrite (filter_cons_False _ (key a) []) by (intros H; by apply H).
           by rewrite app_nil_r.
        -- apply elem_of_app. left. by apply mappedAttributes_keys.
      * rewrite decide_False.
        -- rewrite (filter_cons_True _ (key a) []) by done. by rewrite app_assoc.
        -- intros [Hin|Hin]%elem_of_app.
           ++ by apply Hp, mappedAttributes_keys.
           ++ apply list_elem_of_filter in Hin as [_ Hin]. done.
Qed.

(** ** The reducer of role names *)

Lemma reduce_listRolesNames (acc : list JsVal) (lists : list (list JsVal)) :
  foldl listRolesNames acc lists = acc ++ concat lists.
Proof.
  revert acc. induction lists as [|names lists IH]; intros acc; cbn.
  - by rewrite app_nil_r.
  - rewrite IH. unfold listRolesNames. by rewrite app_assoc.
Qed.

(** X26: [reduce(this.listRolesNames, [])] flattens: whatever lists of
    names it is run over, the result holds the names of the first list,
    then those of the second, and so on, every name as often as it occurs;
    over no list at all it is the empty list. *)
Theorem listRolesNames_reduce_flattens (lists : list (list JsVal)) :
  foldl listRolesNames [] lists = concat lists ∧
  length (foldl listRolesNames [] lists) = sum_list (length <$> lists) ∧
  ∀ name, name ∈ foldl listRolesNames [] lists ↔ ∃ names, names ∈ lists ∧ name ∈ names.
Proof.
  rewrite reduce_listRolesNames. cbn [app]. split_and!.
  - done.
  - induction lists as [|names lists IH]; [done|].
    cbn. by rewrite length_app, IH.
  - intros name. rewrite list_elem_of_In, in_concat. split.
    + intros (names & Hin & Hname). exists names.
      split; by apply list_elem_of_In.
    + intros (names & Hin & Hname). exists names.
      split; by apply list_elem_of_In.
Qed.
